(** * The mlock allocator of Botan: a best-fit free-list allocator over a
      single page-locked pool (src/lib/engine/core_engine/lookup_hash.cpp,
      second document: "Mlock Allocator").

    The allocator is embedded as pure functions over an explicit allocator
    state.  [size_t] values are integers in [0, 2^64) and every arithmetic
    operation of the source is written with its wrap-around.  The free list
    [m_freelist] (a vector of (offset, length) pairs) is a list, iterators
    are indices into it. *)

From Stdlib Require Import ZArith Lia String.
From stdpp Require Import base list.

Local Open Scope Z_scope.

(** ** Machine words *)

Definition size_bits : Z := 64.
Definition size_modulus : Z := 2 ^ size_bits.
Definition SIZE_MAX : Z := size_modulus - 1.

Definition wrap (x : Z) : Z := x mod size_modulus.

Definition is_size_t (x : Z) : Prop := 0 <= x < size_modulus.

(** ** Outcomes of a call

    A call either returns, stops on a failed [BOTAN_ASSERT], throws from the
    constructor, or executes an operation whose behaviour C++ leaves
    undefined (integer division by zero, dereferencing the past-the-end
    iterator). *)

Inductive outcome (A : Type) : Type :=
  | Ret (a : A)
  | AssertionFailure (msg : string)
  | Throw (msg : string)
  | Undefined.

Arguments Ret {A} a.
Arguments AssertionFailure {A} msg.
Arguments Throw {A} msg.
Arguments Undefined {A}.

(** Sequencing: the first outcome that is not a return ends the call. *)
Definition outcome_bind {A B : Type} (k : A -> outcome B) (c : outcome A) : outcome B :=
  match c with
  | Ret a => k a
  | AssertionFailure msg => AssertionFailure msg
  | Throw msg => Throw msg
  | Undefined => Undefined
  end.

#[global] Instance outcome_mret : MRet outcome := @Ret.
#[global] Instance outcome_mbind : MBind outcome := @outcome_bind.

(** Modelled from the spec: the macro [BOTAN_ASSERT] of botan/internal/assert.h
    is not part of the sources at hand; the specification's error table says
    that a failed internal assertion aborts the call. *)
Definition BOTAN_ASSERT (expr : bool) (assertion_made : string) : outcome unit :=
  if expr then Ret tt else AssertionFailure assertion_made.

(** ** Allocator state *)

Definition extent : Type := Z * Z.

Definition nullptr : Z := 0.

Record mlock_allocator : Type := {
  m_poolsize : Z;
  m_pool : Z;
  m_freelist : list extent;
  (** the bytes of the address space, as far as the allocator writes them *)
  memory : Z -> Z
}.

(** Modelled from the spec: [clear_mem] of botan/mem_ops.h is not part of the
    sources at hand; the specification describes it as the primitive that,
    given (address, length), writes zero bytes. *)
Definition clear_mem (ptr n : Z) (mem : Z -> Z) : Z -> Z :=
  fun a => if (ptr <=? a) && (a <? ptr + n) then 0 else mem a.

Definition MLOCK_UPPER_BOUND : Z := 512 * 1024.

(** [mlock_limit]: the soft limit [rlim_cur] as the operating system reports
    it after the attempt to raise it, bounded by 512 KiB. *)
Definition mlock_limit (rlim_cur : Z) : Z := Z.min rlim_cur MLOCK_UPPER_BOUND.

Definition ptr_in_pool (pool_ptr poolsize buf_ptr bufsize : Z) : outcome bool :=
  let pool := pool_ptr in
  let buf := buf_ptr in
  if (buf <? pool) || (buf >=? wrap (pool + poolsize)) then Ret false
  else
    BOTAN_ASSERT (wrap (buf + bufsize) <=? wrap (pool + poolsize))
                 "Pointer does not partially overlap pool" ;;
    Ret true.

(** The only caller divides by [desired_alignment] before it gets here, so
    the remainder is never taken by zero. *)
Definition padding_for_alignment (offset desired_alignment : Z) : Z :=
  let mod_ := offset mod desired_alignment in
  if mod_ =? 0 then 0
  else wrap (desired_alignment - mod_).

(** ** Vector operations on the free list *)

(** [std::vector::insert(pos, x)]: [x] is placed before position [pos]. *)
Definition vec_insert (pos : nat) (x : extent) (l : list extent) : list extent :=
  take pos l ++ x :: drop pos l.

(** [std::lower_bound] with the comparison [x.first < y.first]: the first
    position whose offset is not below [start] (the length of the list when
    there is none).  This is what the library call returns on a free list
    sorted by offset, the only lists it may be called on: on a list that is
    not partitioned by the comparison the call has no defined result, and
    nothing is claimed about it. *)
Fixpoint lower_bound (l : list extent) (start : Z) : nat :=
  match l with
  | [] => O
  | e :: rest => if fst e <? start then S (lower_bound rest start) else O
  end.

(** ** allocate *)

(** Result of the traversal of the free list: either the loop returned from
    inside at a perfect fit, or it ran to the end with [best_fit] ([None] is
    [m_freelist.end()]). *)
Inductive fit : Type :=
  | Perfect (i : nat)
  | Best (best_fit : option nat).

Fixpoint scan (fl : list extent) (n alignment : Z)
              (rest : list extent) (i : nat) (best_fit : option nat) : fit :=
  match rest with
  | [] => Best best_fit
  | e :: rest' =>
      if (snd e =? n) && (fst e mod alignment =? 0) then Perfect i
      else if (snd e >=? wrap (n + padding_for_alignment (fst e) alignment))
              && (match best_fit with
                  | None => true
                  | Some b => snd (fl !!! b) >? snd e
                  end)
           then scan fl n alignment rest' (S i) (Some i)
           else scan fl n alignment rest' (S i) best_fit
  end.

Definition with_freelist (st : mlock_allocator) (fl : list extent) (mem : Z -> Z)
  : mlock_allocator :=
  {| m_poolsize := m_poolsize st; m_pool := m_pool st;
     m_freelist := fl; memory := mem |}.

Definition allocate (st : mlock_allocator) (num_elems elem_size : Z)
  : outcome (Z * mlock_allocator) :=
  if m_pool st =? nullptr then Ret (nullptr, st)
  else
    let n := wrap (num_elems * elem_size) in
    let alignment := elem_size in
    if elem_size =? 0 then Undefined
    else if negb (n / elem_size =? num_elems) then Ret (nullptr, st)
    else if n >=? m_poolsize st then Ret (nullptr, st)
    else
      let fl := m_freelist st in
      match scan fl n alignment fl O None with
      | Perfect i =>
          let offset := fst (fl !!! i) in
          let st' := with_freelist st (delete i fl)
                       (clear_mem (wrap (m_pool st + offset)) n (memory st)) in
          BOTAN_ASSERT (wrap (m_pool st + offset) mod alignment =? 0)
                       "Returning correctly aligned pointer" ;;
          Ret (wrap (m_pool st + offset), st')
      | Best (Some best_fit) =>
          let offset := fst (fl !!! best_fit) in
          let alignment_padding := padding_for_alignment offset alignment in
          let first := wrap (offset + wrap (n + alignment_padding)) in
          let second := wrap (snd (fl !!! best_fit) - wrap (n + alignment_padding)) in
          let fl1 := <[best_fit := (first, second)]> fl in
          let fl2 :=
            if alignment_padding =? 0 then fl1
            else if second =? 0
                 then <[best_fit := (offset, alignment_padding)]> fl1
                 else vec_insert best_fit (offset, alignment_padding) fl1 in
          let ptr := wrap (wrap (m_pool st + offset) + alignment_padding) in
          let st' := with_freelist st fl2 (clear_mem ptr n (memory st)) in
          BOTAN_ASSERT (wrap (wrap (m_pool st + offset) + alignment_padding)
                          mod alignment =? 0)
                       "Returning correctly aligned pointer" ;;
          Ret (ptr, st')
      | Best None => Ret (nullptr, st)
      end.

(** ** deallocate *)

(** The part of deallocate that runs under the mutex, from the binary search
    to the final insertion: the free list after [start, start + n) has been
    given back. *)
Definition release (fl : list extent) (start n : Z) : outcome (list extent) :=
  let i := lower_bound fl start in
  (* try to merge with later block *)
  let '(fl1, n1) :=
    if (i <? length fl)%nat && (wrap (start + n) =? fst (fl !!! i))
    then (<[i := (start, wrap (snd (fl !!! i) + n))]> fl, 0)
    else (fl, n) in
  (* try to merge with previous block *)
  merged ←
    (if negb (i =? 0)%nat
     then
       let prev := pred i in
       if wrap (fst (fl1 !!! prev) + snd (fl1 !!! prev)) =? start
       then
         if negb (n1 =? 0)
         then Ret (<[prev := (fst (fl1 !!! prev),
                               wrap (snd (fl1 !!! prev) + n1))]> fl1, 0)
         else
           (* merge adjoining: reads and erases [i], which may be end() *)
           match fl1 !! i with
           | Some e =>
               Ret (delete i (<[prev := (fst (fl1 !!! prev),
                                         wrap (snd (fl1 !!! prev) + snd e))]> fl1),
                    n1)
           | None => Undefined
           end
       else Ret (fl1, n1)
     else Ret (fl1, n1)) ;
  let '(fl2, n2) := merged in
  (* no merge possible? *)
  Ret (if negb (n2 =? 0) then vec_insert i (start, n2) fl2 else fl2).

Definition deallocate (st : mlock_allocator) (p num_elems elem_size : Z)
  : outcome (bool * mlock_allocator) :=
  if m_pool st =? nullptr then Ret (false, st)
  else
    let n := wrap (num_elems * elem_size) in
    if elem_size =? 0 then Undefined
    else
      BOTAN_ASSERT (n / elem_size =? num_elems) "No overflow in deallocation" ;;
      in_pool ← ptr_in_pool (m_pool st) (m_poolsize st) p n ;
      if negb in_pool then Ret (false, st)
      else
        let start := wrap (p - m_pool st) in
        fl ← release (m_freelist st) start n ;
        Ret (true, with_freelist st fl (memory st)).

(** ** Construction *)

(** The constructor, given what the operating system answers: the soft
    memory-lock limit, the result of [mmap] ([None] is [MAP_FAILED]) and
    whether [mlock] succeeded. *)
Definition construct (rlim_cur : Z) (mmap_result : option Z) (mlock_ok : bool)
                     (mem : Z -> Z) : outcome mlock_allocator :=
  let poolsize := mlock_limit rlim_cur in
  if poolsize =? 0
  then Ret {| m_poolsize := poolsize; m_pool := nullptr;
              m_freelist := []; memory := mem |}
  else
    match mmap_result with
    | None => Throw "Failed to mmap locking_allocator pool"
    | Some pool =>
        if mlock_ok
        then Ret {| m_poolsize := poolsize; m_pool := pool;
                    m_freelist := [(0, poolsize)];
                    memory := clear_mem pool poolsize mem |}
        else Throw "Failed to lock pool in memory"
    end.

(** The state right after a successful construction of a pool of [P] bytes
    at address [B]. *)
Definition fresh (B P : Z) (mem : Z -> Z) : mlock_allocator :=
  {| m_poolsize := P; m_pool := B; m_freelist := [(0, P)];
     memory := clear_mem B P mem |}.

(** Projections used to look at results. *)
Definition alloc_result (o : outcome (Z * mlock_allocator)) : outcome (Z * list extent) :=
  r ← o ; Ret (fst r, m_freelist (snd r)).

Definition dealloc_result (o : outcome (bool * mlock_allocator)) : outcome (bool * list extent) :=
  r ← o ; Ret (fst r, m_freelist (snd r)).

Definition state_of (B P : Z) (fl : list extent) : mlock_allocator :=
  {| m_poolsize := P; m_pool := B; m_freelist := fl; memory := fun _ => 0 |}.

(** ** State invariants *)

(** An enabled pool as the constructor leaves it: a non-null base, a size
    between one byte and the 512 KiB bound, and an end that is an address. *)
Definition pool_wf (st : mlock_allocator) : Prop :=
  0 < m_pool st /\ 0 < m_poolsize st <= MLOCK_UPPER_BOUND
  /\ m_pool st + m_poolsize st < size_modulus.

(** A disabled allocator: no pool at all. *)
Definition disabled (st : mlock_allocator) : Prop :=
  m_pool st = nullptr /\ m_poolsize st = 0 /\ m_freelist st = [].

Definition constructed (st : mlock_allocator) : Prop :=
  disabled st \/ pool_wf st.

Definition extent_in_pool (P : Z) (e : extent) : Prop :=
  0 <= fst e /\ 0 <= snd e /\ fst e + snd e <= P.

Definition freelist_in_pool (st : mlock_allocator) : Prop :=
  Forall (extent_in_pool (m_poolsize st)) (m_freelist st).


(** ** The selection policy of allocate, in the words of its contract *)

(** A perfect fit: the extent has exactly the requested length and its
    offset is a multiple of the alignment. *)
Definition perfect_fit (n alignment : Z) (e : extent) : Prop :=
  snd e = n /\ fst e mod alignment = 0.

(** A candidate: the extent holds the request after the alignment padding. *)
Definition candidate (n alignment : Z) (e : extent) : Prop :=
  n + padding_for_alignment (fst e) alignment <= snd e.

Definition first_perfect (fl : list extent) (n alignment : Z) (i : nat) (e : extent) : Prop :=
  fl !! i = Some e /\ perfect_fit n alignment e
  /\ forall j e', (j < i)%nat -> fl !! j = Some e' -> ~ perfect_fit n alignment e'.

Definition no_perfect (fl : list extent) (n alignment : Z) : Prop :=
  forall j e', fl !! j = Some e' -> ~ perfect_fit n alignment e'.

(** The best candidate: a candidate of smallest length, the first one in
    list order among those of that length. *)
Definition best_candidate (fl : list extent) (n alignment : Z) (b : nat) (e : extent) : Prop :=
  fl !! b = Some e /\ candidate n alignment e
  /\ forall j e', fl !! j = Some e' -> candidate n alignment e' ->
       snd e < snd e' \/ (snd e' = snd e /\ (b <= j)%nat).

Definition no_candidate (fl : list extent) (n alignment : Z) : Prop :=
  forall j e', fl !! j = Some e' -> ~ candidate n alignment e'.

(** What is left of the extent [(off, len)] once [n] bytes have been carved
    from its front after [pad] bytes of padding: the padding hole, if any,
    and the tail, if any. *)
Definition remainder (off len n pad : Z) : list extent :=
  (if pad =? 0 then [] else [(off, pad)])
  ++ (if len =? n + pad then [] else [(off + pad + n, len - n - pad)]).

(** The loop invariant of the traversal after [k] extents, and what the
    traversal establishes. *)
Definition scan_inv (fl : list extent) (n alignment : Z) (k : nat) (best_fit : option nat) : Prop :=
  (forall j e', (j < k)%nat -> fl !! j = Some e' -> ~ perfect_fit n alignment e')
  /\ match best_fit with
     | None => forall j e', (j < k)%nat -> fl !! j = Some e' -> ~ candidate n alignment e'
     | Some b =>
         exists e, (b < k)%nat /\ fl !! b = Some e /\ candidate n alignment e
           /\ forall j e', (j < k)%nat -> fl !! j = Some e' -> candidate n alignment e' ->
                snd e < snd e' \/ (snd e' = snd e /\ (b <= j)%nat)
     end.

Definition scan_post (fl : list extent) (n alignment : Z) (r : fit) : Prop :=
  match r with
  | Perfect i => exists e, first_perfect fl n alignment i e
  | Best None => no_perfect fl n alignment /\ no_candidate fl n alignment
  | Best (Some b) => no_perfect fl n alignment /\ exists e, best_candidate fl n alignment b e
  end.

(** The request passes the refusal checks of allocate. *)
Definition request_ok (st : mlock_allocator) (num_elems elem_size : Z) : Prop :=
  is_size_t num_elems /\ is_size_t elem_size /\ elem_size <> 0
  /\ num_elems * elem_size < size_modulus
  /\ num_elems * elem_size < m_poolsize st.

(** ** The canonical form of the free list *)

(** [canonical_from lo P fl]: every extent of [fl] has a positive length and
    ends within the pool, the first one starts above [lo], and each one
    starts strictly above the end of the one before it. *)
Fixpoint canonical_from (lo P : Z) (fl : list extent) : Prop :=
  match fl with
  | [] => True
  | e :: rest =>
      lo < fst e /\ 0 < snd e /\ fst e + snd e <= P
      /\ canonical_from (fst e + snd e) P rest
  end.

Definition canonical (P : Z) (fl : list extent) : Prop := canonical_from (-1) P fl.

(** The end of the last extent of [fl], [lo] when there is none. *)
Fixpoint last_end (lo : Z) (fl : list extent) : Z :=
  match fl with
  | [] => lo
  | e :: rest => last_end (fst e + snd e) rest
  end.

(** The three parts of the canonical form, each on its own. *)
Definition sorted_by_offset (fl : list extent) : Prop :=
  forall i j e1 e2, (i < j)%nat -> fl !! i = Some e1 -> fl !! j = Some e2 ->
    fst e1 < fst e2.

Definition disjoint (a b : extent) : Prop :=
  fst a + snd a <= fst b \/ fst b + snd b <= fst a.

Definition pairwise_disjoint (fl : list extent) : Prop :=
  forall i j e1 e2, i <> j -> fl !! i = Some e1 -> fl !! j = Some e2 ->
    disjoint e1 e2.

Definition non_adjacent (fl : list extent) : Prop :=
  forall i e1 e2, fl !! i = Some e1 -> fl !! (S i) = Some e2 ->
    fst e1 + snd e1 < fst e2.

(** The byte at offset [x] is free. *)
Definition covers (fl : list extent) (x : Z) : Prop :=
  exists e, e ∈ fl /\ fst e <= x < fst e + snd e.

(** ** Clients *)

(** The outstanding allocations, as (offset, length) pairs: within the pool,
    of positive length, and pairwise disjoint. *)
Fixpoint all_disjoint (live : list extent) : Prop :=
  match live with
  | [] => True
  | a :: rest => Forall (disjoint a) rest /\ all_disjoint rest
  end.

Definition heap_inv (st : mlock_allocator) (live : list extent) : Prop :=
  canonical (m_poolsize st) (m_freelist st)
  /\ Forall (fun a => 0 <= fst a /\ 0 < snd a /\ fst a + snd a <= m_poolsize st) live
  /\ (forall a e, a ∈ live -> e ∈ m_freelist st -> disjoint a e)
  /\ all_disjoint live.

Inductive call : Type :=
  | Allocate (num_elems elem_size : Z)
  | Deallocate (p num_elems elem_size : Z).

Definition step (st : mlock_allocator) (c : call) : outcome mlock_allocator :=
  match c with
  | Allocate num_elems elem_size =>
      r ← allocate st num_elems elem_size ; Ret (snd r)
  | Deallocate p num_elems elem_size =>
      r ← deallocate st p num_elems elem_size ; Ret (snd r)
  end.

Fixpoint run (st : mlock_allocator) (calls : list call) : outcome mlock_allocator :=
  match calls with
  | [] => Ret st
  | c :: rest => st' ← step st c ; run st' rest
  end.

(** [reachable B P mem st live]: the state [st], with the allocations [live]
    outstanding, is reached from the fresh pool by calls of allocate for a
    positive number of bytes and calls of deallocate that give back an
    outstanding allocation, with the size it was requested with. *)
Inductive reachable (B P : Z) (mem : Z -> Z) : mlock_allocator -> list extent -> Prop :=
  | reach_fresh : reachable B P mem (fresh B P mem) []
  | reach_allocate st live num_elems elem_size A st' :
      reachable B P mem st live ->
      is_size_t num_elems -> is_size_t elem_size ->
      0 < num_elems * elem_size ->
      allocate st num_elems elem_size = Ret (A, st') ->
      reachable B P mem st'
        (if A =? nullptr then live else (A - B, num_elems * elem_size) :: live)
  | reach_deallocate st live1 live2 p num_elems elem_size b st' :
      reachable B P mem st (live1 ++ (p - B, num_elems * elem_size) :: live2) ->
      is_size_t num_elems -> is_size_t elem_size ->
      deallocate st p num_elems elem_size = Ret (b, st') ->
      reachable B P mem st' (live1 ++ live2).

(** ** Statements that are put to the test *)

(** Rejection of every range that is not contained in the pool. *)
Definition rejects_uncontained_ranges : Prop :=
  forall st p num_elems elem_size,
    pool_wf st ->
    is_size_t p -> is_size_t num_elems -> is_size_t elem_size ->
    ~ (m_pool st <= p /\ p + num_elems * elem_size <= m_pool st + m_poolsize st) ->
    deallocate st p num_elems elem_size = Ret (false, st).

(** Selection without a proviso: the chosen extent always yields its
    address. *)
Definition selection_always_returns : Prop :=
  forall st num_elems elem_size,
    pool_wf st -> freelist_in_pool st -> request_ok st num_elems elem_size ->
    let n := num_elems * elem_size in
    let fl := m_freelist st in
    (forall i e, first_perfect fl n elem_size i e ->
       exists st', allocate st num_elems elem_size = Ret (m_pool st + fst e, st')
                   /\ m_freelist st' = delete i fl)
    /\ (no_perfect fl n elem_size ->
        forall b e, best_candidate fl n elem_size b e ->
          let pad := padding_for_alignment (fst e) elem_size in
          exists st', allocate st num_elems elem_size = Ret (m_pool st + fst e + pad, st')
                      /\ m_freelist st'
                         = take b fl ++ remainder (fst e) (snd e) n pad ++ drop (S b) fl).

(** A release of zero bytes, strictly inside the pool and away from every
    free extent, that leaves a length-zero extent behind. *)
Definition zero_size_insertion (st : mlock_allocator) (p num_elems elem_size : Z) : Prop :=
  pool_wf st /\ freelist_in_pool st
  /\ is_size_t num_elems /\ is_size_t elem_size
  /\ num_elems * elem_size = 0
  /\ m_pool st <= p < m_pool st + m_poolsize st
  /\ (forall e, e ∈ m_freelist st -> fst e <> p - m_pool st)
  /\ (forall e, e ∈ m_freelist st -> fst e + snd e <> p - m_pool st)
  /\ exists st', deallocate st p num_elems elem_size = Ret (true, st')
                 /\ (p - m_pool st, 0) ∈ m_freelist st'.

(** The canonical form after any sequence of calls whatsoever. *)
Definition canonical_after_any_calls : Prop :=
  forall B P mem calls st,
    pool_wf (fresh B P mem) ->
    run (fresh B P mem) calls = Ret st ->
    sorted_by_offset (m_freelist st)
    /\ pairwise_disjoint (m_freelist st)
    /\ non_adjacent (m_freelist st).

(** The round trip for every request. *)
Definition round_trip_always : Prop :=
  forall st num_elems elem_size A st',
    pool_wf st -> canonical (m_poolsize st) (m_freelist st) ->
    is_size_t num_elems -> is_size_t elem_size ->
    allocate st num_elems elem_size = Ret (A, st') ->
    A <> nullptr ->
    exists st'', deallocate st' A num_elems elem_size = Ret (true, st'')
                 /\ m_freelist st'' = m_freelist st.

(** ** Destruction *)

(** The destructor: with a pool in place the whole region is zeroed, then
    unlocked and unmapped, and the allocator forgets it; without a pool
    nothing happens.  The free list is a member that the body does not
    touch. *)
Definition destroy (st : mlock_allocator) : mlock_allocator :=
  if m_pool st =? nullptr then st
  else {| m_poolsize := 0; m_pool := nullptr;
          m_freelist := m_freelist st;
          memory := clear_mem (m_pool st) (m_poolsize st) (memory st) |}.

(** ** Measures *)

(** The number of bytes in a list of extents. *)
Definition total_length (l : list extent) : Z :=
  foldr (fun e acc => snd e + acc) 0 l.

(** The byte at offset [x] lies in the range [(s, n)]. *)
Definition in_range (s n x : Z) : Prop := s <= x < s + n.

(** Every call returns, with success and its mutation done or with failure
    and the allocator untouched. *)
Definition every_call_returns_cleanly : Prop :=
  forall st,
    pool_wf st -> canonical (m_poolsize st) (m_freelist st) ->
    (forall num_elems elem_size,
       is_size_t num_elems -> is_size_t elem_size ->
       (exists A st', A <> nullptr /\ allocate st num_elems elem_size = Ret (A, st'))
       \/ allocate st num_elems elem_size = Ret (nullptr, st))
    /\ (forall p num_elems elem_size,
          is_size_t p -> is_size_t num_elems -> is_size_t elem_size ->
          (exists st', deallocate st p num_elems elem_size = Ret (true, st'))
          \/ deallocate st p num_elems elem_size = Ret (false, st)).
(** ** Arithmetic of machine words *)

Lemma size_modulus_eq : size_modulus = 18446744073709551616.
Proof. reflexivity. Qed.

Lemma wrap_small (x : Z) : 0 <= x < size_modulus -> wrap x = x.
Proof. intros H. unfold wrap. apply Z.mod_small. exact H. Qed.

Lemma wrap_range (x : Z) : 0 <= wrap x < size_modulus.
Proof. unfold wrap. apply Z.mod_pos_bound. rewrite size_modulus_eq. lia. Qed.

Lemma wrap_le (x : Z) : 0 <= x -> wrap x <= x.
Proof.
  intros H. unfold wrap. apply Z.mod_le; [exact H|].
  rewrite size_modulus_eq. lia.
Qed.

(** The overflow test of the source, [n / elem_size != num_elems], is exact:
    it passes if and only if the product did not wrap. *)
Lemma overflow_check_exact (num_elems elem_size : Z) :
  is_size_t num_elems -> 0 < elem_size ->
  (wrap (num_elems * elem_size) / elem_size = num_elems
   <-> num_elems * elem_size < size_modulus).
Proof.
  intros [Hn0 Hn1] He. split.
  - intros Hdiv.
    pose proof (wrap_range (num_elems * elem_size)) as Hr.
    pose proof (Z.mul_div_le (wrap (num_elems * elem_size)) elem_size He) as Hle.
    rewrite Hdiv in Hle. nia.
  - intros Hlt. rewrite wrap_small by nia.
    apply Z.div_mul. lia.
Qed.

Lemma padding_range (offset a : Z) :
  0 < a < size_modulus ->
  0 <= padding_for_alignment offset a < a
  /\ (offset + padding_for_alignment offset a) mod a = 0.
Proof.
  intros Ha. unfold padding_for_alignment.
  pose proof (Z.mod_pos_bound offset a ltac:(lia)) as Hm.
  destruct (Z.eqb_spec (offset mod a) 0) as [Hz|Hnz].
  - split; [lia|]. rewrite Z.add_0_r. exact Hz.
  - rewrite wrap_small by lia. split; [lia|].
    replace (offset + (a - offset mod a)) with (a + (offset - offset mod a)) by lia.
    rewrite (Z.div_mod offset a) at 1 by lia.
    replace (a + (a * (offset / a) + offset mod a - offset mod a))
      with ((1 + offset / a) * a) by lia.
    apply Z.mod_mul. lia.
Qed.

Lemma padding_zero_iff (offset a : Z) :
  0 < a < size_modulus ->
  (padding_for_alignment offset a = 0 <-> offset mod a = 0).
Proof.
  intros Ha. unfold padding_for_alignment.
  pose proof (Z.mod_pos_bound offset a ltac:(lia)) as Hm.
  destruct (Z.eqb_spec (offset mod a) 0) as [Hz|Hnz]; [tauto|].
  rewrite wrap_small by lia. split; intros; lia.
Qed.

(** ** The scenarios of the specification, run on a pool of 1024 bytes *)

Example scenario_perfect_fit_reuse :
  alloc_result (allocate (state_of 4096 1024 [(0, 1024)]) 1 256)
    = Ret (4096, [(256, 768)])
  /\ dealloc_result (deallocate (state_of 4096 1024 [(256, 768)]) 4096 1 256)
    = Ret (true, [(0, 1024)]).
Proof. split; vm_compute; reflexivity. Qed.

Example scenario_alignment_hole :
  alloc_result (allocate (state_of 4096 1024 [(1, 1023)]) 1 8)
    = Ret (4096 + 8, [(1, 7); (16, 1008)])
  /\ dealloc_result (deallocate (state_of 4096 1024 [(1, 7); (16, 1008)]) (4096 + 8) 1 8)
    = Ret (true, [(1, 1023)]).
Proof. split; vm_compute; reflexivity. Qed.

Example scenario_best_fit :
  alloc_result (allocate (state_of 4096 1024 [(0, 64); (128, 32); (256, 128)]) 32 1)
    = Ret (4096 + 128, [(0, 64); (256, 128)]).
Proof. vm_compute; reflexivity. Qed.

Example scenario_oversized :
  alloc_result (allocate (state_of 4096 1024 [(0, 1024)]) 1024 1)
    = Ret (nullptr, [(0, 1024)]).
Proof. vm_compute; reflexivity. Qed.

Example scenario_bidirectional_merge :
  let st := state_of 4096 1024 [(0, 1024)] in
  (r ← run st [Allocate 100 1; Allocate 100 1; Allocate 100 1;
               Deallocate 4096 100 1] ; Ret (m_freelist r))
    = Ret [(0, 100); (300, 724)]
  /\ (r ← run st [Allocate 100 1; Allocate 100 1; Allocate 100 1;
                  Deallocate 4096 100 1; Deallocate (4096 + 200) 100 1] ;
      Ret (m_freelist r))
    = Ret [(0, 100); (200, 824)]
  /\ (r ← run st [Allocate 100 1; Allocate 100 1; Allocate 100 1;
                  Deallocate 4096 100 1; Deallocate (4096 + 200) 100 1;
                  Deallocate (4096 + 100) 100 1] ;
      Ret (m_freelist r))
    = Ret [(0, 1024)].
Proof. repeat split; vm_compute; reflexivity. Qed.

Example scenario_overflow :
  alloc_result (allocate (state_of 4096 1024 [(0, 1024)]) SIZE_MAX 2)
    = Ret (nullptr, [(0, 1024)]).
Proof. vm_compute; reflexivity. Qed.


(** ** Refusals of allocate *)

Ltac unfold_bind := unfold mbind, outcome_mbind, outcome_bind, BOTAN_ASSERT in *.

(** C7: when the product [num_elems * elem_size] overflows a machine word,
    [allocate] returns the null pointer and the allocator, hence its free
    list, is left as it was. *)
Theorem allocate_overflow_refused (st : mlock_allocator) (num_elems elem_size : Z) :
  is_size_t num_elems -> is_size_t elem_size ->
  size_modulus <= num_elems * elem_size ->
  allocate st num_elems elem_size = Ret (nullptr, st).
Proof.
  intros Hn He Hov. unfold allocate.
  destruct (m_pool st =? nullptr); [reflexivity|].
  assert (0 < elem_size) as Hpos.
  { destruct Hn, He. rewrite size_modulus_eq in *. nia. }
  destruct (Z.eqb_spec elem_size 0) as [->|_]; [lia|].
  destruct (Z.eqb_spec (wrap (num_elems * elem_size) / elem_size) num_elems)
    as [Hdiv|_]; [|reflexivity].
  apply overflow_check_exact in Hdiv; [lia|assumption|assumption].
Qed.

Lemma allocate_overflow_refused_witness :
  allocate (fresh 4096 1024 (fun _ => 255)) SIZE_MAX 2
    = Ret (nullptr, fresh 4096 1024 (fun _ => 255)).
Proof.
  apply (allocate_overflow_refused (fresh 4096 1024 (fun _ => 255)) SIZE_MAX 2).
  - unfold is_size_t. vm_compute. split; [discriminate|reflexivity].
  - unfold is_size_t. vm_compute. split; [discriminate|reflexivity].
  - vm_compute. discriminate.
Defined.

(** C6: when the product does not overflow and is at least the pool size,
    equality included, [allocate] returns the null pointer. *)
Theorem allocate_oversized_refused (st : mlock_allocator) (num_elems elem_size : Z) :
  constructed st ->
  is_size_t num_elems -> is_size_t elem_size ->
  num_elems * elem_size < size_modulus ->
  m_poolsize st <= num_elems * elem_size ->
  allocate st num_elems elem_size = Ret (nullptr, st).
Proof.
  intros Hst Hn He Hno Hbig. unfold allocate.
  destruct (Z.eqb_spec (m_pool st) nullptr) as [|Hen]; [reflexivity|].
  destruct Hst as [[Hd _]|(_ & HP & _)]; [contradiction|].
  destruct (Z.eqb_spec elem_size 0) as [->|Hnz]; [lia|].
  destruct (negb _); [reflexivity|].
  rewrite wrap_small by (destruct Hn, He; nia).
  destruct (Z.geb_spec (num_elems * elem_size) (m_poolsize st)); [reflexivity|lia].
Qed.

Lemma allocate_oversized_refused_witness :
  allocate (fresh 4096 1024 (fun _ => 255)) 1024 1
    = Ret (nullptr, fresh 4096 1024 (fun _ => 255)).
Proof.
  apply (allocate_oversized_refused (fresh 4096 1024 (fun _ => 255)) 1024 1).
  - right. unfold pool_wf. simpl. rewrite size_modulus_eq. unfold MLOCK_UPPER_BOUND. lia.
  - unfold is_size_t. rewrite size_modulus_eq. lia.
  - unfold is_size_t. rewrite size_modulus_eq. lia.
  - rewrite size_modulus_eq. lia.
  - simpl. lia.
Defined.

(** C9: on an enabled pool a call with [elem_size = 0] reaches the division
    [n / elem_size] of the overflow guard with a zero divisor, whatever
    [num_elems] is; with [elem_size <> 0] no call runs into undefined
    behaviour.  The pool just constructed is such a state, so the division
    by zero is one call away from the public interface. *)
Theorem allocate_zero_elem_size_undefined (st : mlock_allocator) (num_elems : Z) :
  m_pool st <> nullptr ->
  allocate st num_elems 0 = Undefined
  /\ (forall elem_size, elem_size <> 0 -> allocate st num_elems elem_size <> Undefined)
  /\ allocate (fresh (m_pool st) (m_poolsize st) (memory st)) num_elems 0 = Undefined.
Proof.
  intros Hen. split; [|split].
  - unfold allocate. destruct (Z.eqb_spec (m_pool st) nullptr); [contradiction|reflexivity].
  - intros elem_size Hnz. unfold allocate.
    destruct (m_pool st =? nullptr); [discriminate|].
    destruct (Z.eqb_spec elem_size 0); [contradiction|].
    destruct (negb _); [discriminate|].
    destruct (_ >=? _); [discriminate|].
    destruct (scan _ _ _ _ _ _) as [i|[b|]]; unfold_bind;
      try discriminate; destruct (_ =? 0); discriminate.
  - unfold allocate, fresh. simpl.
    destruct (Z.eqb_spec (m_pool st) nullptr); [contradiction|reflexivity].
Qed.

Lemma allocate_zero_elem_size_undefined_witness :
  allocate (fresh 4096 1024 (fun _ => 255)) 7 0 = Undefined.
Proof.
  refine (proj1 (allocate_zero_elem_size_undefined (fresh 4096 1024 (fun _ => 255)) 7 _)).
  simpl. unfold nullptr. lia.
Defined.

(** ** The traversal of the free list *)

Section Scan.
Variables (fl : list extent) (n alignment : Z).
Hypothesis no_wrap : forall off,
  wrap (n + padding_for_alignment off alignment) = n + padding_for_alignment off alignment.

Lemma scan_inv_start : scan_inv fl n alignment 0 None.
Proof. split; intros j e' Hj; lia. Qed.

(** The extent at position [k] is passed over. *)
Lemma scan_inv_skip (k : nat) (best_fit : option nat) (e : extent) :
  scan_inv fl n alignment k best_fit ->
  fl !! k = Some e ->
  ~ perfect_fit n alignment e ->
  (~ candidate n alignment e
   \/ exists b, best_fit = Some b /\ snd (fl !!! b) <= snd e) ->
  scan_inv fl n alignment (S k) best_fit.
Proof.
  intros [Hnp Hbest] Hk Hnpe Hwhy. split.
  - intros j e' Hj He'. destruct (decide (j = k)) as [->|Hne].
    + congruence.
    + apply (Hnp j); [lia|exact He'].
  - destruct best_fit as [b|].
    + destruct Hbest as (eb & Hb & Heb & Hcb & Hmin).
      exists eb. split; [lia|]. split; [exact Heb|]. split; [exact Hcb|].
      intros j e' Hj He' Hc'. destruct (decide (j = k)) as [->|Hne].
      * assert (e' = e) as -> by congruence.
        destruct Hwhy as [Hnc|(b' & Hb' & Hle)]; [contradiction|].
        injection Hb' as <-.
        rewrite (list_lookup_total_correct _ _ _ Heb) in Hle.
        destruct (Z.eq_dec (snd e) (snd eb)); [right; split; [assumption|lia]|left; lia].
      * apply Hmin; [lia|assumption|assumption].
    + intros j e' Hj He'. destruct (decide (j = k)) as [->|Hne].
      * assert (e' = e) as -> by congruence.
        destruct Hwhy as [Hnc|(b' & Hb' & _)]; [exact Hnc|discriminate].
      * apply (Hbest j); [lia|exact He'].
Qed.

(** The extent at position [k] becomes the best fit. *)
Lemma scan_inv_take (k : nat) (best_fit : option nat) (e : extent) :
  scan_inv fl n alignment k best_fit ->
  fl !! k = Some e ->
  ~ perfect_fit n alignment e ->
  candidate n alignment e ->
  (best_fit = None \/ exists b, best_fit = Some b /\ snd (fl !!! b) > snd e) ->
  scan_inv fl n alignment (S k) (Some k).
Proof.
  intros [Hnp Hbest] Hk Hnpe Hc Hwhy. split.
  - intros j e' Hj He'. destruct (decide (j = k)) as [->|Hne].
    + congruence.
    + apply (Hnp j); [lia|exact He'].
  - exists e. split; [lia|]. split; [exact Hk|]. split; [exact Hc|].
    intros j e' Hj He' Hc'. destruct (decide (j = k)) as [->|Hne].
    + right. split; [congruence|lia].
    + destruct Hwhy as [->|(b & -> & Hgt)].
      * exfalso. apply (Hbest j e'); [lia|assumption|assumption].
      * destruct Hbest as (eb & Hb & Heb & Hcb & Hmin).
        rewrite (list_lookup_total_correct _ _ _ Heb) in Hgt.
        destruct (Hmin j e' ltac:(lia) He' Hc') as [?|[? ?]]; left; lia.
Qed.

Lemma scan_inv_end (best_fit : option nat) :
  scan_inv fl n alignment (length fl) best_fit ->
  scan_post fl n alignment (Best best_fit).
Proof.
  intros [Hnp Hbest].
  assert (forall j (e' : extent), fl !! j = Some e' -> (j < length fl)%nat) as Hlt.
  { intros j e' H. eapply lookup_lt_Some; eauto. }
  destruct best_fit as [b|]; simpl.
  - split; [intros j e' H; eapply Hnp; eauto|].
    destruct Hbest as (e & Hb & He & Hc & Hmin). exists e.
    split; [exact He|]. split; [exact Hc|].
    intros j e' H. eapply Hmin; eauto.
  - split; intros j e' H; [eapply Hnp|eapply Hbest]; eauto.
Qed.

Lemma scan_correct (rest pre : list extent) (best_fit : option nat) :
  fl = pre ++ rest ->
  scan_inv fl n alignment (length pre) best_fit ->
  scan_post fl n alignment (scan fl n alignment rest (length pre) best_fit).
Proof.
  revert pre best_fit.
  induction rest as [|e rest IH]; intros pre best_fit Hfl Hinv.
  - simpl. rewrite app_nil_r in Hfl. subst pre. apply scan_inv_end. exact Hinv.
  - assert (fl !! length pre = Some e) as Hcur.
    { rewrite Hfl. apply list_lookup_middle. reflexivity. }
    assert (fl = (pre ++ [e]) ++ rest) as Hfl'.
    { rewrite <- app_assoc. exact Hfl. }
    assert (length (pre ++ [e]) = S (length pre)) as Hlen.
    { rewrite length_app. simpl. lia. }
    cbn [scan]. rewrite no_wrap.
    destruct ((snd e =? n) && (fst e mod alignment =? 0)) eqn:Hperf.
    + apply andb_true_iff in Hperf as [Hsn Ha].
      apply Z.eqb_eq in Hsn. apply Z.eqb_eq in Ha.
      exists e. split; [exact Hcur|]. split; [split; assumption|].
      intros j e' Hj. apply (proj1 Hinv). exact Hj.
    + assert (~ perfect_fit n alignment e) as Hnpe.
      { intros [Hsn Ha]. apply Z.eqb_eq in Hsn. apply Z.eqb_eq in Ha.
        rewrite Hsn, Ha in Hperf. discriminate. }
      rewrite <- Hlen.
      destruct (Z.geb_spec (snd e) (n + padding_for_alignment (fst e) alignment))
        as [Hc|Hc]; cbn [andb].
      * destruct best_fit as [b|].
        -- match goal with
           | |- context [?x >? ?y] => destruct (Z.gtb_spec x y) as [Hgt|Hle]
           end; apply IH; try exact Hfl'; rewrite Hlen.
           ++ eapply scan_inv_take; eauto. right. exists b. split; [reflexivity|lia].
           ++ eapply scan_inv_skip; eauto.
        -- apply IH; [exact Hfl'|]. rewrite Hlen.
           eapply scan_inv_take; eauto.
      * apply IH; [exact Hfl'|]. rewrite Hlen.
        eapply scan_inv_skip; eauto. left. unfold candidate. lia.
Qed.

Lemma scan_spec : scan_post fl n alignment (scan fl n alignment fl O None).
Proof. apply (scan_correct fl []); [reflexivity|apply scan_inv_start]. Qed.
End Scan.

(** ** Positions in the free list *)

Lemma lookup_split (l : list extent) (i : nat) (e : extent) :
  l !! i = Some e ->
  exists l1 l2, l = l1 ++ e :: l2 /\ length l1 = i
                /\ take i l = l1 /\ drop (S i) l = l2.
Proof.
  intros H. exists (take i l), (drop (S i) l).
  split; [symmetry; apply take_drop_middle; exact H|].
  split; [|split; reflexivity].
  apply length_take_le. apply lookup_lt_Some in H. lia.
Qed.

Lemma update_middle (l1 l2 : list extent) (e x : extent) :
  <[length l1 := x]> (l1 ++ e :: l2) = l1 ++ x :: l2.
Proof.
  rewrite insert_app_r_alt by lia.
  replace (length l1 - length l1)%nat with O by lia. reflexivity.
Qed.

Lemma vec_insert_middle (l1 l2 : list extent) (x : extent) :
  vec_insert (length l1) x (l1 ++ l2) = l1 ++ x :: l2.
Proof.
  unfold vec_insert. rewrite take_app_length, drop_app_length. reflexivity.
Qed.

Lemma lookup_total_middle (l1 l2 : list extent) (e : extent) :
  (l1 ++ e :: l2) !!! length l1 = e.
Proof. apply list_lookup_total_middle. reflexivity. Qed.

Lemma lookup_in_pool (P : Z) (l : list extent) (i : nat) (e : extent) :
  Forall (extent_in_pool P) l -> l !! i = Some e -> extent_in_pool P e.
Proof. intros Hall H. eapply Forall_lookup_1; eauto. Qed.

(** ** allocate, once the refusal checks are passed *)

Lemma request_no_wrap (st : mlock_allocator) (num_elems elem_size : Z) :
  pool_wf st -> request_ok st num_elems elem_size ->
  0 < elem_size
  /\ 0 <= num_elems * elem_size
  /\ wrap (num_elems * elem_size) = num_elems * elem_size
  /\ forall off,
       wrap (num_elems * elem_size + padding_for_alignment off elem_size)
       = num_elems * elem_size + padding_for_alignment off elem_size.
Proof.
  intros (HB & HP & Htop) ([Hn0 Hn1] & [He0 He1] & Hnz & Hno & Hlt).
  assert (0 < elem_size) as Hpos by lia.
  assert (0 <= num_elems * elem_size) as Hnn by nia.
  split; [exact Hpos|]. split; [exact Hnn|].
  split; [apply wrap_small; lia|].
  intros off. apply wrap_small.
  pose proof (padding_range off elem_size ltac:(lia)) as [Hpad _].
  unfold MLOCK_UPPER_BOUND in HP. rewrite size_modulus_eq in *.
  destruct (Z.eq_dec num_elems 0) as [->|Hne]; [lia|].
  assert (elem_size <= num_elems * elem_size) by nia. lia.
Qed.

Lemma allocate_checks_passed (st : mlock_allocator) (num_elems elem_size : Z) :
  pool_wf st -> request_ok st num_elems elem_size ->
  allocate st num_elems elem_size =
    let n := num_elems * elem_size in
    let fl := m_freelist st in
    match scan fl n elem_size fl O None with
    | Perfect i =>
        let offset := fst (fl !!! i) in
        BOTAN_ASSERT (wrap (m_pool st + offset) mod elem_size =? 0)
                     "Returning correctly aligned pointer" ;;
        Ret (wrap (m_pool st + offset),
             with_freelist st (delete i fl)
               (clear_mem (wrap (m_pool st + offset)) n (memory st)))
    | Best (Some best_fit) =>
        let offset := fst (fl !!! best_fit) in
        let alignment_padding := padding_for_alignment offset elem_size in
        let first := wrap (offset + wrap (n + alignment_padding)) in
        let second := wrap (snd (fl !!! best_fit) - wrap (n + alignment_padding)) in
        let fl1 := <[best_fit := (first, second)]> fl in
        let fl2 :=
          if alignment_padding =? 0 then fl1
          else if second =? 0
               then <[best_fit := (offset, alignment_padding)]> fl1
               else vec_insert best_fit (offset, alignment_padding) fl1 in
        let ptr := wrap (wrap (m_pool st + offset) + alignment_padding) in
        BOTAN_ASSERT (ptr mod elem_size =? 0)
                     "Returning correctly aligned pointer" ;;
        Ret (ptr, with_freelist st fl2 (clear_mem ptr n (memory st)))
    | Best None => Ret (nullptr, st)
    end.
Proof.
  intros Hwf Hreq.
  destruct (request_no_wrap st num_elems elem_size Hwf Hreq) as (Hpos & Hnn & Hw & _).
  destruct Hwf as (HB & HP & Htop).
  destruct Hreq as (Hn & He & Hnz & Hno & Hlt).
  unfold allocate. rewrite Hw.
  destruct (Z.eqb_spec (m_pool st) nullptr) as [Hz|_]; [unfold nullptr in Hz; lia|].
  destruct (Z.eqb_spec elem_size 0) as [|_]; [contradiction|].
  rewrite Z.div_mul by lia. rewrite Z.eqb_refl. cbn [negb].
  destruct (Z.geb_spec (num_elems * elem_size) (m_poolsize st)); [lia|].
  reflexivity.
Qed.

Lemma first_perfect_unique (fl : list extent) (n a : Z) (i i' : nat) (e e' : extent) :
  first_perfect fl n a i e -> first_perfect fl n a i' e' -> i = i' /\ e = e'.
Proof.
  intros (Hi & Hp & Hmin) (Hi' & Hp' & Hmin').
  assert (i = i') as <-.
  { destruct (lt_eq_lt_dec i i') as [[Hlt|Heq]|Hgt]; [|exact Heq|].
    - exfalso. exact (Hmin' i e Hlt Hi Hp).
    - exfalso. exact (Hmin i' e' Hgt Hi' Hp'). }
  split; [reflexivity|congruence].
Qed.

Lemma best_candidate_unique (fl : list extent) (n a : Z) (b b' : nat) (e e' : extent) :
  best_candidate fl n a b e -> best_candidate fl n a b' e' -> b = b' /\ e = e'.
Proof.
  intros (Hb & Hc & Hmin) (Hb' & Hc' & Hmin').
  assert (b = b') as <-.
  { destruct (Hmin b' e' Hb' Hc') as [?|[? ?]];
      destruct (Hmin' b e Hb Hc) as [?|[? ?]]; lia. }
  split; [reflexivity|congruence].
Qed.

Section AllocateRuns.
Variables (st : mlock_allocator) (num_elems elem_size : Z).
Hypothesis Hwf : pool_wf st.
Hypothesis Hfl : freelist_in_pool st.
Hypothesis Hreq : request_ok st num_elems elem_size.

Lemma allocate_perfect (i : nat) (e : extent) :
  first_perfect (m_freelist st) (num_elems * elem_size) elem_size i e ->
  allocate st num_elems elem_size =
    if (m_pool st + fst e) mod elem_size =? 0
    then Ret (m_pool st + fst e,
              with_freelist st (delete i (m_freelist st))
                (clear_mem (m_pool st + fst e) (num_elems * elem_size) (memory st)))
    else AssertionFailure "Returning correctly aligned pointer".
Proof.
  intros Hfp.
  destruct (request_no_wrap st num_elems elem_size Hwf Hreq) as (Hpos & Hnn & Hw & Hnw).
  rewrite allocate_checks_passed by assumption. cbv zeta.
  pose proof (scan_spec (m_freelist st) (num_elems * elem_size) elem_size Hnw) as Hpost.
  destruct (scan _ _ _ _ _ _) as [i'|[b|]]; simpl in Hpost.
  - destruct Hpost as [e' Hfp'].
    destruct (first_perfect_unique _ _ _ _ _ _ _ Hfp Hfp') as [<- <-].
    destruct Hfp as (Hi & _).
    rewrite (list_lookup_total_correct _ _ _ Hi).
    pose proof (lookup_in_pool _ _ _ _ Hfl Hi) as (Ho & Hl & Hin).
    destruct Hwf as (HB & HP & Htop).
    rewrite (wrap_small (m_pool st + fst e)) by lia.
    unfold_bind. destruct (_ =? 0); reflexivity.
  - destruct Hpost as [Hnp _]. destruct Hfp as (Hi & Hp & _).
    exfalso. exact (Hnp i e Hi Hp).
  - destruct Hpost as [Hnp _]. destruct Hfp as (Hi & Hp & _).
    exfalso. exact (Hnp i e Hi Hp).
Qed.

Lemma allocate_best (b : nat) (e : extent) :
  no_perfect (m_freelist st) (num_elems * elem_size) elem_size ->
  best_candidate (m_freelist st) (num_elems * elem_size) elem_size b e ->
  let pad := padding_for_alignment (fst e) elem_size in
  allocate st num_elems elem_size =
    if (m_pool st + fst e + pad) mod elem_size =? 0
    then Ret (m_pool st + fst e + pad,
              with_freelist st
                (take b (m_freelist st)
                 ++ remainder (fst e) (snd e) (num_elems * elem_size) pad
                 ++ drop (S b) (m_freelist st))
                (clear_mem (m_pool st + fst e + pad) (num_elems * elem_size)
                   (memory st)))
    else AssertionFailure "Returning correctly aligned pointer".
Proof.
  intros Hnop Hbc pad.
  destruct (request_no_wrap st num_elems elem_size Hwf Hreq) as (Hpos & Hnn & Hw & Hnw).
  rewrite allocate_checks_passed by assumption. cbv zeta.
  pose proof (scan_spec (m_freelist st) (num_elems * elem_size) elem_size Hnw) as Hpost.
  destruct (scan _ _ _ _ _ _) as [i'|[b'|]]; simpl in Hpost.
  - destruct Hpost as (e' & Hi & Hp & _). exfalso. exact (Hnop i' e' Hi Hp).
  - destruct Hpost as (_ & e' & Hbc').
    destruct (best_candidate_unique _ _ _ _ _ _ _ Hbc Hbc') as [<- <-].
    destruct Hbc as (Hb & Hc & _). unfold candidate in Hc.
    rewrite (list_lookup_total_correct _ _ _ Hb).
    pose proof (lookup_in_pool _ _ _ _ Hfl Hb) as (Ho & Hl & Hin).
    destruct Hwf as (HB & HP & Htop). destruct Hreq as (_ & He & _).
    pose proof (padding_range (fst e) elem_size ltac:(destruct He; lia)) as [Hpad _].
    subst pad.
    rewrite (Hnw (fst e)).
    set (pad := padding_for_alignment (fst e) elem_size) in *.
    set (n := num_elems * elem_size) in *.
    set (fl := m_freelist st) in *.
    rewrite (wrap_small (m_pool st + fst e)) by lia.
    rewrite (wrap_small (m_pool st + fst e + pad)) by lia.
    rewrite (wrap_small (fst e + (n + pad))) by lia.
    rewrite (wrap_small (snd e - (n + pad))) by lia.
    destruct (lookup_split _ _ _ Hb) as (l1 & l2 & Heq & Hlen & Htake & Hdrop).
    rewrite Htake, Hdrop.
    assert ((if pad =? 0
             then <[b:=(fst e + (n + pad), snd e - (n + pad))]> fl
             else if snd e - (n + pad) =? 0
                  then <[b:=(fst e, pad)]>
                         (<[b:=(fst e + (n + pad), snd e - (n + pad))]> fl)
                  else vec_insert b (fst e, pad)
                         (<[b:=(fst e + (n + pad), snd e - (n + pad))]> fl))
            = l1 ++ remainder (fst e) (snd e) n pad ++ l2) as ->.
    { rewrite Heq, <- Hlen. unfold remainder.
      replace (fst e + (n + pad)) with (fst e + pad + n) by lia.
      replace (snd e - (n + pad)) with (snd e - n - pad) by lia.
      destruct (Z.eqb_spec pad 0) as [Hp0|Hp0].
      - rewrite update_middle.
        destruct (Z.eqb_spec (snd e) (n + pad)) as [Hperf|_].
        + exfalso. apply (Hnop b e Hb). split; [lia|].
          apply padding_zero_iff; [destruct He; lia|exact Hp0].
        + reflexivity.
      - rewrite update_middle.
        destruct (Z.eqb_spec (snd e - n - pad) 0) as [Hz|Hz];
          destruct (Z.eqb_spec (snd e) (n + pad)) as [Hz'|Hz']; try lia.
        + rewrite update_middle. reflexivity.
        + rewrite vec_insert_middle. reflexivity. }
    unfold_bind. destruct (_ =? 0); reflexivity.
  - destruct Hpost as (_ & Hnc). destruct Hbc as (Hb & Hc & _).
    exfalso. exact (Hnc b e Hb Hc).
Qed.

Lemma allocate_no_fit :
  no_perfect (m_freelist st) (num_elems * elem_size) elem_size -> no_candidate (m_freelist st) (num_elems * elem_size) elem_size ->
  allocate st num_elems elem_size = Ret (nullptr, st).
Proof.
  intros Hnop Hnoc.
  destruct (request_no_wrap st num_elems elem_size Hwf Hreq) as (Hpos & Hnn & Hw & Hnw).
  rewrite allocate_checks_passed by assumption. cbv zeta.
  pose proof (scan_spec (m_freelist st) (num_elems * elem_size) elem_size Hnw) as Hpost.
  destruct (scan _ _ _ _ _ _) as [i'|[b'|]]; simpl in Hpost.
  - destruct Hpost as (e' & Hi & Hp & _). exfalso. exact (Hnop i' e' Hi Hp).
  - destruct Hpost as (_ & e' & Hb & Hc & _). exfalso. exact (Hnoc b' e' Hb Hc).
  - reflexivity.
Qed.

(** One of the three cases always applies. *)
Lemma selection_cases :
  (exists i e, first_perfect (m_freelist st) (num_elems * elem_size) elem_size i e)
  \/ (no_perfect (m_freelist st) (num_elems * elem_size) elem_size /\ exists b e, best_candidate (m_freelist st) (num_elems * elem_size) elem_size b e)
  \/ (no_perfect (m_freelist st) (num_elems * elem_size) elem_size /\ no_candidate (m_freelist st) (num_elems * elem_size) elem_size).
Proof.
  destruct (request_no_wrap st num_elems elem_size Hwf Hreq) as (_ & _ & _ & Hnw).
  pose proof (scan_spec (m_freelist st) (num_elems * elem_size) elem_size Hnw) as Hpost.
  destruct (scan _ _ _ _ _ _) as [i'|[b'|]]; simpl in Hpost.
  - left. destruct Hpost as [e He]. exists i', e. exact He.
  - right. left. destruct Hpost as (Hnp & e & He). split; [exact Hnp|]. exists b', e. exact He.
  - right. right. exact Hpost.
Qed.
End AllocateRuns.

(** The refusal checks either let the request through, or return null with
    the allocator untouched, or divide by zero. *)
Lemma allocate_checks (st : mlock_allocator) (num_elems elem_size : Z) :
  pool_wf st -> is_size_t num_elems -> is_size_t elem_size ->
  request_ok st num_elems elem_size
  \/ allocate st num_elems elem_size = Ret (nullptr, st)
  \/ (elem_size = 0 /\ allocate st num_elems elem_size = Undefined).
Proof.
  intros (HB & HP & Htop) Hn He. unfold allocate.
  destruct (Z.eqb_spec (m_pool st) nullptr) as [Hz|_]; [unfold nullptr in Hz; lia|].
  destruct (Z.eqb_spec elem_size 0) as [Hes|Hes]; [right; right; split; [assumption|reflexivity]|].
  assert (0 < elem_size) as Hpos by (destruct He; lia).
  destruct (Z.eqb_spec (wrap (num_elems * elem_size) / elem_size) num_elems)
    as [Hdiv|Hdiv]; cbn [negb]; [|right; left; reflexivity].
  apply overflow_check_exact in Hdiv; [|assumption|assumption].
  rewrite wrap_small by (destruct Hn; nia).
  destruct (Z.geb_spec (num_elems * elem_size) (m_poolsize st));
    [right; left; reflexivity|].
  left. repeat split; try (destruct Hn, He; assumption); lia.
Qed.

Lemma padding_of_aligned (offset a : Z) :
  offset mod a = 0 -> padding_for_alignment offset a = 0.
Proof. intros H. unfold padding_for_alignment. rewrite H. reflexivity. Qed.

(** Every return of allocate is either the null pointer with the allocator
    untouched, or an aligned address inside one extent of the free list,
    which is replaced by what remains of it. *)
Lemma allocate_inv (st st' : mlock_allocator) (num_elems elem_size A : Z) :
  pool_wf st -> freelist_in_pool st ->
  is_size_t num_elems -> is_size_t elem_size ->
  allocate st num_elems elem_size = Ret (A, st') ->
  (A = nullptr /\ st' = st)
  \/ (request_ok st num_elems elem_size
      /\ exists l1 e l2,
           m_freelist st = l1 ++ e :: l2
           /\ let n := num_elems * elem_size in
              let pad := padding_for_alignment (fst e) elem_size in
              n + pad <= snd e
              /\ A = m_pool st + fst e + pad
              /\ A mod elem_size = 0
              /\ st' = with_freelist st
                         (l1 ++ remainder (fst e) (snd e) n pad ++ l2)
                         (clear_mem A n (memory st))).
Proof.
  intros Hwf Hfl Hn He Hrun.
  destruct (allocate_checks st num_elems elem_size Hwf Hn He)
    as [Hreq|[Hnull|[_ Hundef]]].
  2: { left. rewrite Hnull in Hrun. injection Hrun as <- <-. split; reflexivity. }
  2: { rewrite Hundef in Hrun. discriminate. }
  destruct (selection_cases st num_elems elem_size Hwf Hreq)
    as [(i & e & Hfp)|[(Hnop & b & e & Hbc)|(Hnop & Hnoc)]].
  - right. split; [exact Hreq|].
    rewrite (allocate_perfect st num_elems elem_size Hwf Hfl Hreq i e Hfp) in Hrun.
    destruct (Z.eqb_spec ((m_pool st + fst e) mod elem_size) 0) as [Hal|Hal];
      [|discriminate].
    injection Hrun as <- <-.
    destruct Hfp as (Hi & [Hlen Hmod] & _).
    destruct (lookup_split _ _ _ Hi) as (l1 & l2 & Heq & Hl1 & _).
    exists l1, e, l2. split; [exact Heq|]. cbv zeta.
    rewrite (padding_of_aligned _ _ Hmod).
    split; [lia|]. split; [lia|]. split; [exact Hal|].
    f_equal.
    rewrite Heq, <- Hl1, delete_middle. unfold remainder.
    rewrite Z.add_0_r, Hlen, !Z.eqb_refl. reflexivity.
  - right. split; [exact Hreq|].
    rewrite (allocate_best st num_elems elem_size Hwf Hfl Hreq b e Hnop Hbc) in Hrun.
    cbv zeta in Hrun.
    destruct (Z.eqb_spec ((m_pool st + fst e
                           + padding_for_alignment (fst e) elem_size) mod elem_size) 0)
      as [Hal|Hal]; [|discriminate].
    injection Hrun as <- <-.
    destruct Hbc as (Hb & Hc & _).
    destruct (lookup_split _ _ _ Hb) as (l1 & l2 & Heq & Hl1 & Htake & Hdrop).
    exists l1, e, l2. split; [exact Heq|]. cbv zeta.
    split; [exact Hc|]. split; [reflexivity|]. split; [exact Hal|].
    rewrite Htake, Hdrop. reflexivity.
  - left. rewrite (allocate_no_fit st num_elems elem_size Hwf Hreq Hnop Hnoc) in Hrun.
    injection Hrun as <- <-. split; reflexivity.
Qed.

(** ** Properties of the returned address *)

(** C5: a non-null address returned by allocate is a multiple of
    [elem_size], its [n] bytes lie within the pool, each of them was covered
    by an extent of the free list before the call, and each of them reads
    zero when the call returns. *)
Theorem allocate_returns_aligned_free_zeroed
    (st st' : mlock_allocator) (num_elems elem_size A : Z) :
  pool_wf st -> freelist_in_pool st ->
  is_size_t num_elems -> is_size_t elem_size ->
  allocate st num_elems elem_size = Ret (A, st') ->
  A <> nullptr ->
  let n := num_elems * elem_size in
  A mod elem_size = 0
  /\ m_pool st <= A /\ A + n <= m_pool st + m_poolsize st
  /\ (forall a, A <= a < A + n ->
        exists e, e ∈ m_freelist st
                  /\ m_pool st + fst e <= a < m_pool st + fst e + snd e)
  /\ (forall a, A <= a < A + n -> memory st' a = 0).
Proof.
  intros Hwf Hfl Hn He Hrun Hnonnull n.
  destruct (allocate_inv st st' num_elems elem_size A Hwf Hfl Hn He Hrun)
    as [[Hnull _]|(Hreq & l1 & e & l2 & Heq & Hc & HA & Hal & Hst')];
    [contradiction|].
  cbv zeta in Hc, Hst'. fold n in Hc, Hst'.
  destruct (request_no_wrap st num_elems elem_size Hwf Hreq) as (Hpos & Hnn & _ & _).
  fold n in Hnn.
  pose proof (padding_range (fst e) elem_size ltac:(destruct He; lia)) as [Hpad _].
  assert (e ∈ m_freelist st) as Hin.
  { rewrite Heq. apply elem_of_app. right. apply elem_of_cons. left. reflexivity. }
  assert (extent_in_pool (m_poolsize st) e) as (Ho & Hl & Hend).
  { unfold freelist_in_pool in Hfl. rewrite Forall_forall in Hfl. apply Hfl. exact Hin. }
  split; [exact Hal|]. split; [lia|]. split; [lia|]. split.
  - intros a Ha. exists e. split; [exact Hin|]. lia.
  - intros a Ha. rewrite Hst'. simpl. unfold clear_mem.
    destruct (Z.leb_spec A a); [|lia].
    destruct (Z.ltb_spec a (A + n)); [|lia]. reflexivity.
Qed.

Lemma allocate_returns_aligned_free_zeroed_witness :
  let st := fresh 4096 1024 (fun _ => 255) in
  exists st',
    allocate st 4 8 = Ret (4096, st')
    /\ 4096 mod 8 = 0
    /\ m_pool st <= 4096 /\ 4096 + 4 * 8 <= m_pool st + m_poolsize st
    /\ (forall a, 4096 <= a < 4096 + 4 * 8 ->
          exists e, e ∈ m_freelist st
                    /\ m_pool st + fst e <= a < m_pool st + fst e + snd e)
    /\ (forall a, 4096 <= a < 4096 + 4 * 8 -> memory st' a = 0).
Proof.
  intros st.
  destruct (allocate st 4 8) as [[A st']| | |] eqn:Hrun; try discriminate Hrun.
  assert (A = 4096) as -> by (vm_compute in Hrun; congruence).
  exists st'. split; [reflexivity|].
  apply (allocate_returns_aligned_free_zeroed st st' 4 8 4096).
  - unfold pool_wf. simpl. rewrite size_modulus_eq. unfold MLOCK_UPPER_BOUND. lia.
  - unfold freelist_in_pool. simpl. constructor; [|constructor].
    unfold extent_in_pool. simpl. lia.
  - unfold is_size_t. rewrite size_modulus_eq. lia.
  - unfold is_size_t. rewrite size_modulus_eq. lia.
  - exact Hrun.
  - unfold nullptr. lia.
Defined.

(** ** The selection policy *)

(** With a pool base that is a multiple of the element size the selection
    always ends in a return: the first perfect fit is erased and its address
    returned; without a perfect fit the smallest candidate, the first one
    among equals, is carved from its front after the alignment padding. *)
Lemma allocate_selection_when_base_aligned
    (st : mlock_allocator) (num_elems elem_size : Z) :
  pool_wf st -> freelist_in_pool st -> request_ok st num_elems elem_size ->
  m_pool st mod elem_size = 0 ->
  let n := num_elems * elem_size in
  let fl := m_freelist st in
  let B := m_pool st in
  (forall i e, first_perfect fl n elem_size i e ->
     allocate st num_elems elem_size =
       Ret (B + fst e,
            with_freelist st (delete i fl) (clear_mem (B + fst e) n (memory st))))
  /\ (no_perfect fl n elem_size ->
      forall b e, best_candidate fl n elem_size b e ->
        let pad := padding_for_alignment (fst e) elem_size in
        allocate st num_elems elem_size =
          Ret (B + fst e + pad,
               with_freelist st
                 (take b fl ++ remainder (fst e) (snd e) n pad ++ drop (S b) fl)
                 (clear_mem (B + fst e + pad) n (memory st)))).
Proof.
  intros Hwf Hfl Hreq Hbase n fl B.
  assert (0 < elem_size < size_modulus) as Hes.
  { destruct Hreq as (_ & [? ?] & ? & _). lia. }
  split.
  - intros i e Hfp.
    rewrite (allocate_perfect st num_elems elem_size Hwf Hfl Hreq i e Hfp).
    destruct Hfp as (_ & [_ Hmod] & _).
    assert ((m_pool st + fst e) mod elem_size = 0) as ->.
    { rewrite Z.add_mod, Hbase, Hmod by lia. apply Z.mod_0_l. lia. }
    reflexivity.
  - intros Hnop b e Hbc pad.
    rewrite (allocate_best st num_elems elem_size Hwf Hfl Hreq b e Hnop Hbc).
    cbv zeta.
    destruct (padding_range (fst e) elem_size Hes) as [_ Hmod].
    assert ((m_pool st + fst e + padding_for_alignment (fst e) elem_size)
              mod elem_size = 0) as ->.
    { rewrite <- Z.add_assoc, Z.add_mod, Hbase, Hmod by lia. apply Z.mod_0_l. lia. }
    reflexivity.
Qed.

Lemma example_pool_wf (fl : list extent) : pool_wf (state_of 4096 1024 fl).
Proof.
  unfold pool_wf. simpl. rewrite size_modulus_eq. unfold MLOCK_UPPER_BOUND. lia.
Qed.

Lemma example_request_ok (fl : list extent) (num_elems elem_size : Z) :
  0 <= num_elems -> 0 < elem_size < 1024 -> num_elems * elem_size < 1024 ->
  request_ok (state_of 4096 1024 fl) num_elems elem_size.
Proof.
  intros Hn He Hlt. unfold request_ok, is_size_t. simpl.
  rewrite size_modulus_eq. repeat split; nia.
Qed.

(** C4 at the failing input: the padding is computed from the offset alone
    while the assertion before each return asks for an aligned address.  On
    the pool of 1024 bytes at address 4096, the request for one element of
    three bytes passes the refusal checks; with the free list [(0, 1024)]
    that extent is its best candidate, and with the free list [(3, 3)] that
    extent is a perfect fit; in both cases the call stops on the assertion
    "Returning correctly aligned pointer" instead of returning the address
    of the selected extent. *)
Theorem allocate_asserts_on_unaligned_base :
  let st := state_of 4096 1024 [(0, 1024)] in
  let st2 := state_of 4096 1024 [(3, 3)] in
  pool_wf st /\ freelist_in_pool st /\ request_ok st 1 3
  /\ no_perfect (m_freelist st) (1 * 3) 3
  /\ best_candidate (m_freelist st) (1 * 3) 3 O (0, 1024)
  /\ allocate st 1 3 = AssertionFailure "Returning correctly aligned pointer"
  /\ first_perfect (m_freelist st2) (1 * 3) 3 O (3, 3)
  /\ allocate st2 1 3 = AssertionFailure "Returning correctly aligned pointer"
  /\ ~ selection_always_returns.
Proof.
  intros st st2.
  assert (freelist_in_pool st) as Hfl.
  { unfold freelist_in_pool, extent_in_pool. simpl. repeat constructor; simpl; lia. }
  assert (request_ok st 1 3) as Hreq by (apply example_request_ok; lia).
  assert (no_perfect (m_freelist st) (1 * 3) 3) as Hnop.
  { intros j e' Hj [Hlen _]. simpl in Hj.
    destruct j as [|j]; simpl in Hj; [|discriminate].
    injection Hj as <-. simpl in Hlen. lia. }
  assert (best_candidate (m_freelist st) (1 * 3) 3 O (0, 1024)) as Hbc.
  { split; [reflexivity|]. split; [unfold candidate; vm_compute; discriminate|].
    intros j e' Hj _. simpl in Hj.
    destruct j as [|j]; simpl in Hj; [|discriminate].
    injection Hj as <-. right. split; [reflexivity|lia]. }
  split; [apply example_pool_wf|]. split; [exact Hfl|]. split; [exact Hreq|].
  split; [exact Hnop|]. split; [exact Hbc|].
  split; [vm_compute; reflexivity|]. split.
  { split; [reflexivity|]. split; [split; reflexivity|].
    intros j e' Hj. lia. }
  split; [vm_compute; reflexivity|].
  intros Hclaim.
  destruct (Hclaim st 1 3 (example_pool_wf _) Hfl Hreq) as [_ Hbest].
  destruct (Hbest Hnop O (0, 1024) Hbc) as (st' & Hrun & _).
  vm_compute in Hrun. discriminate.
Qed.

(** ** deallocate: the checks before the free list is touched *)

Lemma lower_bound_le (l : list extent) (start : Z) :
  (lower_bound l start <= length l)%nat.
Proof.
  induction l as [|e l IH]; simpl; [lia|].
  destruct (fst e <? start); lia.
Qed.

Lemma with_freelist_same (st : mlock_allocator) :
  with_freelist st (m_freelist st) (memory st) = st.
Proof. destruct st. reflexivity. Qed.

(** A return of [false] comes from one of the two early exits. *)
Lemma deallocate_false_inv (st st' : mlock_allocator) (p num_elems elem_size : Z) :
  deallocate st p num_elems elem_size = Ret (false, st') -> st' = st.
Proof.
  unfold deallocate, ptr_in_pool.
  destruct (m_pool st =? nullptr); [intros H; injection H as <-; reflexivity|].
  destruct (elem_size =? 0); [discriminate|].
  unfold_bind.
  destruct (_ =? num_elems); [|discriminate].
  destruct (_ || _); cbn [negb].
  - intros H. injection H as <-. reflexivity.
  - destruct (_ <=? _); [|discriminate]. cbn [negb].
    destruct (release _ _ _); discriminate.
Qed.

(** With a pool in place, a non-zero element size and a product that does
    not overflow, deallocate comes down to the membership test followed by
    the release of the range. *)
Lemma deallocate_checks_passed (st : mlock_allocator) (p num_elems elem_size : Z) :
  pool_wf st ->
  is_size_t num_elems -> is_size_t elem_size -> elem_size <> 0 ->
  num_elems * elem_size < size_modulus ->
  deallocate st p num_elems elem_size =
    let n := num_elems * elem_size in
    if (p <? m_pool st) || (p >=? m_pool st + m_poolsize st) then Ret (false, st)
    else if wrap (p + n) <=? m_pool st + m_poolsize st
         then fl ← release (m_freelist st) (wrap (p - m_pool st)) n ;
              Ret (true, with_freelist st fl (memory st))
         else AssertionFailure "Pointer does not partially overlap pool".
Proof.
  intros (HB & HP & Htop) Hn He Hnz Hno.
  unfold deallocate, ptr_in_pool.
  destruct (Z.eqb_spec (m_pool st) nullptr) as [Hz|_]; [unfold nullptr in Hz; lia|].
  destruct (Z.eqb_spec elem_size 0) as [|_]; [contradiction|].
  rewrite (wrap_small (num_elems * elem_size)) by (destruct Hn, He; nia).
  rewrite Z.div_mul by lia. rewrite Z.eqb_refl.
  rewrite (wrap_small (m_pool st + m_poolsize st)) by lia.
  unfold_bind. cbv zeta.
  destruct (_ || _); [reflexivity|].
  destruct (_ <=? _); reflexivity.
Qed.

(** ** Foreign pointers *)

(** C1, as amended: on an enabled pool, with a non-zero element size and a
    product that does not overflow, deallocate returns false and leaves the
    allocator as it was whenever the address itself lies outside the pool
    [B, B+P).  (A range that starts inside the pool and runs past its end is
    not rejected: it stops on an assertion.) *)
Theorem deallocate_rejects_foreign_address
    (st : mlock_allocator) (p num_elems elem_size : Z) :
  pool_wf st ->
  is_size_t num_elems -> is_size_t elem_size -> elem_size <> 0 ->
  num_elems * elem_size < size_modulus ->
  ~ (m_pool st <= p < m_pool st + m_poolsize st) ->
  deallocate st p num_elems elem_size = Ret (false, st).
Proof.
  intros Hwf Hn He Hnz Hno Hout.
  rewrite deallocate_checks_passed by assumption. cbv zeta.
  destruct (Z.ltb_spec p (m_pool st)); [reflexivity|].
  destruct (Z.geb_spec p (m_pool st + m_poolsize st)); [reflexivity|].
  lia.
Qed.

Lemma deallocate_rejects_foreign_address_witness :
  deallocate (state_of 4096 1024 [(0, 1024)]) 8192 16 1
    = Ret (false, state_of 4096 1024 [(0, 1024)]).
Proof.
  apply (deallocate_rejects_foreign_address (state_of 4096 1024 [(0, 1024)]) 8192 16 1).
  - apply example_pool_wf.
  - unfold is_size_t. rewrite size_modulus_eq. lia.
  - unfold is_size_t. rewrite size_modulus_eq. lia.
  - lia.
  - rewrite size_modulus_eq. lia.
  - simpl. lia.
Defined.

(** C1, as stated, fails for a range that starts inside the pool and ends
    beyond it: 100 bytes at offset 1000 of a pool of 1024 bytes are not
    answered with [false], the call stops on the assertion of
    [ptr_in_pool]. *)
Lemma deallocate_partial_overlap_asserts :
  deallocate (state_of 4096 1024 [(0, 24)]) (4096 + 1000) 100 1
    = AssertionFailure "Pointer does not partially overlap pool"
  /\ ~ rejects_uncontained_ranges.
Proof.
  assert (deallocate (state_of 4096 1024 [(0, 24)]) (4096 + 1000) 100 1
          = AssertionFailure "Pointer does not partially overlap pool") as Hrun.
  { vm_compute. reflexivity. }
  split; [exact Hrun|].
  intros Hclaim.
  specialize (Hclaim (state_of 4096 1024 [(0, 24)]) (4096 + 1000) 100 1
                (example_pool_wf _)).
  rewrite Hrun in Hclaim.
  assert (AssertionFailure "Pointer does not partially overlap pool"
          = Ret (false, state_of 4096 1024 [(0, 24)])) as Habs; [|discriminate Habs].
  apply Hclaim.
  - unfold is_size_t. rewrite size_modulus_eq. lia.
  - unfold is_size_t. rewrite size_modulus_eq. lia.
  - unfold is_size_t. rewrite size_modulus_eq. lia.
  - simpl. lia.
Qed.

(** A zero element size or an overflowing product never reaches the
    membership test: the first divides by zero, the second stops on the
    overflow assertion. *)
Lemma deallocate_before_membership_test :
  deallocate (state_of 4096 1024 [(0, 24)]) 8192 16 0 = Undefined
  /\ deallocate (state_of 4096 1024 [(0, 24)]) 8192 SIZE_MAX 2
     = AssertionFailure "No overflow in deallocation".
Proof. split; vm_compute; reflexivity. Qed.

(** ** Releases of zero bytes *)

Lemma release_zero_away (fl : list extent) (start : Z) :
  is_size_t start ->
  (forall e, e ∈ fl -> fst e <> start) ->
  (forall e, e ∈ fl -> wrap (fst e + snd e) <> start) ->
  release fl start 0 = Ret fl.
Proof.
  intros Hs Hoff Hend. unfold release.
  pose proof (lower_bound_le fl start) as Hle.
  set (i := lower_bound fl start) in *.
  rewrite Z.add_0_r, (wrap_small start) by exact Hs.
  assert ((i <? length fl)%nat && (start =? fst (fl !!! i)) = false) as ->.
  { destruct (Nat.ltb_spec i (length fl)) as [Hlt|_]; [|reflexivity].
    destruct (lookup_lt_is_Some_2 fl i Hlt) as [e He].
    rewrite (list_lookup_total_correct _ _ _ He).
    destruct (Z.eqb_spec start (fst e)) as [Heq|_]; [|reflexivity].
    exfalso. apply (Hoff e); [eapply list_elem_of_lookup_2; eauto|congruence]. }
  destruct (Nat.eqb_spec i 0) as [Hi0|Hi0]; cbn [negb]; [reflexivity|].
  assert (pred i < length fl)%nat as Hlt by lia.
  destruct (lookup_lt_is_Some_2 fl (pred i) Hlt) as [e He].
  rewrite (list_lookup_total_correct _ _ _ He).
  destruct (Z.eqb_spec (wrap (fst e + snd e)) start) as [Heq|_]; [|reflexivity].
  exfalso. apply (Hend e); [eapply list_elem_of_lookup_2; eauto|exact Heq].
Qed.

Lemma deallocate_zero_size_run (st : mlock_allocator) (p num_elems elem_size : Z) :
  pool_wf st -> freelist_in_pool st ->
  is_size_t num_elems -> is_size_t elem_size -> elem_size <> 0 ->
  num_elems * elem_size = 0 ->
  m_pool st <= p < m_pool st + m_poolsize st ->
  (forall e, e ∈ m_freelist st -> fst e <> p - m_pool st) ->
  (forall e, e ∈ m_freelist st -> fst e + snd e <> p - m_pool st) ->
  deallocate st p num_elems elem_size = Ret (true, st).
Proof.
  intros Hwf Hfl Hn He Hnz Hzero Hp Hoff Hend.
  rewrite deallocate_checks_passed; try assumption;
    [|rewrite Hzero, size_modulus_eq; lia].
  cbv zeta. rewrite Hzero, Z.add_0_r.
  destruct Hwf as (HB & HP & Htop).
  rewrite (wrap_small p) by lia.
  rewrite (wrap_small (p - m_pool st)) by lia.
  destruct (Z.ltb_spec p (m_pool st)); [lia|].
  destruct (Z.geb_spec p (m_pool st + m_poolsize st)); [lia|]. cbn [orb].
  destruct (Z.leb_spec p (m_pool st + m_poolsize st)); [|lia].
  rewrite release_zero_away.
  - unfold_bind. rewrite with_freelist_same. reflexivity.
  - unfold is_size_t. lia.
  - exact Hoff.
  - intros e Hin. unfold freelist_in_pool in Hfl. rewrite Forall_forall in Hfl.
    destruct (Hfl e Hin) as (Ho & Hl & Hin').
    rewrite wrap_small by lia. apply Hend. exact Hin.
Qed.

(** C10, as amended: a deallocate call of total size zero (with a non-zero
    element size) at an address inside the pool whose offset is the offset of
    no free extent and the end of none merges with nothing, returns true and
    leaves the allocator and its free list exactly as they were: the final
    insertion is guarded by [n != 0], no extent of length zero is inserted,
    and the lengths of the free extents are what they were. *)
Theorem deallocate_zero_size_leaves_freelist
    (st : mlock_allocator) (p num_elems elem_size : Z) :
  pool_wf st -> freelist_in_pool st ->
  is_size_t num_elems -> is_size_t elem_size -> elem_size <> 0 ->
  num_elems * elem_size = 0 ->
  m_pool st <= p < m_pool st + m_poolsize st ->
  (forall e, e ∈ m_freelist st -> fst e <> p - m_pool st) ->
  (forall e, e ∈ m_freelist st -> fst e + snd e <> p - m_pool st) ->
  deallocate st p num_elems elem_size = Ret (true, st)
  /\ (p - m_pool st, 0) ∉ m_freelist st.
Proof.
  intros Hwf Hfl Hn He Hnz Hzero Hp Hoff Hend. split.
  - apply deallocate_zero_size_run; assumption.
  - intros Hin. apply (Hoff _ Hin). reflexivity.
Qed.

Lemma deallocate_zero_size_leaves_freelist_witness :
  let st := state_of 4096 1024 [(0, 24); (512, 512)] in
  deallocate st (4096 + 100) 0 8 = Ret (true, st)
  /\ (4096 + 100 - m_pool st, 0) ∉ m_freelist st.
Proof.
  intros st. apply (deallocate_zero_size_leaves_freelist st (4096 + 100) 0 8).
  - apply example_pool_wf.
  - unfold freelist_in_pool, extent_in_pool. simpl. repeat constructor; simpl; lia.
  - unfold is_size_t. rewrite size_modulus_eq. lia.
  - unfold is_size_t. rewrite size_modulus_eq. lia.
  - lia.
  - lia.
  - simpl. lia.
  - intros e Hin. simpl in Hin.
    apply elem_of_cons in Hin as [->|Hin]; [simpl; lia|].
    apply elem_of_cons in Hin as [->|Hin]; [simpl; lia|].
    apply elem_of_nil in Hin. contradiction.
  - intros e Hin. simpl in Hin.
    apply elem_of_cons in Hin as [->|Hin]; [simpl; lia|].
    apply elem_of_cons in Hin as [->|Hin]; [simpl; lia|].
    apply elem_of_nil in Hin. contradiction.
Defined.

(** C10, as stated, fails: no deallocate call of total size zero, at an
    address inside the pool that is the offset of no free extent and the end
    of none, leaves an extent of length zero in the free list. *)
Lemma deallocate_zero_size_never_inserts :
  ~ exists st p num_elems elem_size, zero_size_insertion st p num_elems elem_size.
Proof.
  intros (st & p & num_elems & elem_size & Hwf & Hfl & Hn & He & Hzero & Hp
          & Hoff & Hend & st' & Hrun & Hin).
  destruct (Z.eq_dec elem_size 0) as [->|Hnz].
  - unfold deallocate in Hrun.
    destruct (m_pool st =? nullptr); [discriminate|]. simpl in Hrun. discriminate.
  - rewrite (deallocate_zero_size_run st p num_elems elem_size) in Hrun by assumption.
    injection Hrun as <-. apply (Hoff _ Hin). reflexivity.
Qed.

(** ** The canonical form *)

Section Canonical.
Variable P : Z.

Lemma canonical_from_weaken (lo lo' : Z) (fl : list extent) :
  lo' <= lo -> canonical_from lo P fl -> canonical_from lo' P fl.
Proof.
  intros Hle. destruct fl as [|e rest]; simpl; [trivial|].
  intros (H1 & H2 & H3 & H4). repeat split; try assumption. lia.
Qed.

Lemma canonical_from_app (lo : Z) (l1 l2 : list extent) :
  canonical_from lo P (l1 ++ l2)
  <-> canonical_from lo P l1 /\ canonical_from (last_end lo l1) P l2.
Proof.
  revert lo. induction l1 as [|e l1 IH]; intros lo; simpl.
  - tauto.
  - rewrite IH. tauto.
Qed.

Lemma last_end_app (lo : Z) (l1 l2 : list extent) :
  last_end lo (l1 ++ l2) = last_end (last_end lo l1) l2.
Proof. revert lo. induction l1 as [|e l1 IH]; intros lo; simpl; [reflexivity|apply IH]. Qed.

Lemma last_end_ge (lo : Z) (fl : list extent) :
  canonical_from lo P fl -> lo <= last_end lo fl <= Z.max lo P.
Proof.
  revert lo. induction fl as [|e rest IH]; intros lo; simpl; [lia|].
  intros (H1 & H2 & H3 & H4). specialize (IH _ H4). lia.
Qed.

(** Every extent of a canonical list lies between the lower bound and the
    end of the list. *)
Lemma canonical_from_elem (lo : Z) (fl : list extent) (e : extent) :
  canonical_from lo P fl -> e ∈ fl ->
  lo < fst e /\ 0 < snd e /\ fst e + snd e <= P
  /\ fst e + snd e <= last_end lo fl.
Proof.
  revert lo. induction fl as [|e0 rest IH]; intros lo Hc Hin.
  - apply elem_of_nil in Hin. contradiction.
  - simpl in Hc. destruct Hc as (H1 & H2 & H3 & H4).
    pose proof (last_end_ge _ _ H4) as Hle. simpl.
    apply elem_of_cons in Hin as [->|Hin].
    + repeat split; try assumption. lia.
    + destruct (IH _ H4 Hin) as (I1 & I2 & I3 & I4).
      repeat split; try assumption. lia.
Qed.

(** Around any extent of a canonical list, the extents before it end
    strictly below it and the extents after it start strictly above it. *)
Lemma canonical_from_middle (lo : Z) (l1 l2 : list extent) (e : extent) :
  canonical_from lo P (l1 ++ e :: l2) ->
  canonical_from lo P l1
  /\ last_end lo l1 < fst e /\ 0 < snd e /\ fst e + snd e <= P
  /\ canonical_from (fst e + snd e) P l2
  /\ (forall x, x ∈ l1 -> lo < fst x /\ 0 < snd x /\ fst x + snd x < fst e)
  /\ (forall x, x ∈ l2 -> fst e + snd e < fst x /\ 0 < snd x /\ fst x + snd x <= P).
Proof.
  intros Hc. apply canonical_from_app in Hc as [Hc1 Hc2].
  simpl in Hc2. destruct Hc2 as (H1 & H2 & H3 & H4).
  split; [exact Hc1|]. split; [exact H1|]. split; [exact H2|].
  split; [exact H3|]. split; [exact H4|]. split.
  - intros x Hx.
    destruct (canonical_from_elem _ _ _ Hc1 Hx) as (? & ? & _ & ?).
    repeat split; try assumption. lia.
  - intros x Hx.
    destruct (canonical_from_elem _ _ _ H4 Hx) as (? & ? & ? & _).
    repeat split; assumption.
Qed.

(** An extent of a canonical list may be replaced by any canonical run of
    extents that stays within it. *)
Lemma canonical_from_replace (lo : Z) (l1 l2 mid : list extent) (e : extent) :
  canonical_from lo P (l1 ++ e :: l2) ->
  canonical_from (last_end lo l1) P mid ->
  last_end (last_end lo l1) mid <= fst e + snd e ->
  canonical_from lo P (l1 ++ mid ++ l2).
Proof.
  intros Hc Hmid Hend.
  destruct (canonical_from_middle _ _ _ _ Hc) as (Hc1 & _ & _ & _ & Hc2 & _).
  apply canonical_from_app. split; [exact Hc1|].
  apply canonical_from_app. split; [exact Hmid|].
  eapply canonical_from_weaken; eauto.
Qed.

(** The three parts of the canonical form follow from it. *)
Lemma canonical_from_lookup_lt (lo : Z) (fl : list extent) (i j : nat) (e1 e2 : extent) :
  canonical_from lo P fl -> (i < j)%nat ->
  fl !! i = Some e1 -> fl !! j = Some e2 ->
  fst e1 + snd e1 < fst e2 /\ 0 < snd e1.
Proof.
  revert lo i j. induction fl as [|e rest IH]; intros lo i j Hc Hlt Hi Hj.
  - rewrite lookup_nil in Hi. discriminate.
  - simpl in Hc. destruct Hc as (H1 & H2 & H3 & H4).
    destruct j as [|j]; [lia|]. simpl in Hj.
    destruct i as [|i]; simpl in Hi.
    + injection Hi as <-.
      destruct (canonical_from_elem _ _ _ H4 (list_elem_of_lookup_2 _ _ _ Hj))
        as (? & _). split; assumption.
    + apply (IH _ i j H4); [lia|assumption|assumption].
Qed.

Lemma canonical_sorted (fl : list extent) :
  canonical P fl -> sorted_by_offset fl.
Proof.
  intros Hc i j e1 e2 Hlt Hi Hj.
  destruct (canonical_from_lookup_lt _ _ _ _ _ _ Hc Hlt Hi Hj). lia.
Qed.

Lemma canonical_pairwise_disjoint (fl : list extent) :
  canonical P fl -> pairwise_disjoint fl.
Proof.
  intros Hc i j e1 e2 Hne Hi Hj. unfold disjoint.
  destruct (lt_eq_lt_dec i j) as [[Hlt|Heq]|Hgt]; [|contradiction|].
  - destruct (canonical_from_lookup_lt _ _ _ _ _ _ Hc Hlt Hi Hj). lia.
  - destruct (canonical_from_lookup_lt _ _ _ _ _ _ Hc Hgt Hj Hi). lia.
Qed.

Lemma canonical_non_adjacent (fl : list extent) :
  canonical P fl -> non_adjacent fl.
Proof.
  intros Hc i e1 e2 Hi Hj.
  destruct (canonical_from_lookup_lt _ _ i (S i) _ _ Hc ltac:(lia) Hi Hj). lia.
Qed.
End Canonical.

Lemma canonical_in_pool (st : mlock_allocator) :
  canonical (m_poolsize st) (m_freelist st) -> freelist_in_pool st.
Proof.
  intros Hc. unfold freelist_in_pool. apply Forall_forall. intros e Hin.
  destruct (canonical_from_elem _ _ _ _ Hc Hin) as (H1 & H2 & H3 & _).
  unfold extent_in_pool. lia.
Qed.

(** ** allocate keeps the invariant *)

Lemma remainder_canonical (lo P off len n pad : Z) :
  lo < off -> 0 <= pad -> 0 < n -> n + pad <= len -> off + len <= P ->
  canonical_from lo P (remainder off len n pad)
  /\ last_end lo (remainder off len n pad) <= off + len.
Proof.
  intros Hlo Hpad Hn Hfit Hend. unfold remainder.
  destruct (Z.eqb_spec pad 0) as [Hp|Hp];
    destruct (Z.eqb_spec len (n + pad)) as [Hl|Hl]; simpl;
    repeat split; lia.
Qed.

Lemma remainder_elem (off len n pad : Z) (x : extent) :
  x ∈ remainder off len n pad ->
  0 <= pad -> 0 <= n -> n + pad <= len ->
  off <= fst x /\ fst x + snd x <= off + len
  /\ (fst x + snd x <= off + pad \/ off + pad + n <= fst x).
Proof.
  intros Hin Hpad Hn Hfit. unfold remainder in Hin.
  apply elem_of_app in Hin as [Hin|Hin].
  - destruct (pad =? 0); [apply elem_of_nil in Hin; contradiction|].
    apply list_elem_of_singleton in Hin as ->. simpl. lia.
  - destruct (len =? n + pad); [apply elem_of_nil in Hin; contradiction|].
    apply list_elem_of_singleton in Hin as ->. simpl. lia.
Qed.

Lemma heap_inv_pool (st st' : mlock_allocator) (fl : list extent) (mem : Z -> Z) :
  st' = with_freelist st fl mem ->
  m_pool st' = m_pool st /\ m_poolsize st' = m_poolsize st /\ m_freelist st' = fl.
Proof. intros ->. repeat split. Qed.

Lemma allocate_preserves_inv
    (st st' : mlock_allocator) (live : list extent) (num_elems elem_size A : Z) :
  pool_wf st -> heap_inv st live ->
  is_size_t num_elems -> is_size_t elem_size ->
  0 < num_elems * elem_size ->
  allocate st num_elems elem_size = Ret (A, st') ->
  m_pool st' = m_pool st /\ m_poolsize st' = m_poolsize st
  /\ heap_inv st'
       (if A =? nullptr then live
        else (A - m_pool st, num_elems * elem_size) :: live).
Proof.
  intros Hwf (Hcan & Hlive & Hdis & Hpair) Hn He Hpos Hrun.
  pose proof (canonical_in_pool st Hcan) as Hfl.
  destruct (allocate_inv st st' num_elems elem_size A Hwf Hfl Hn He Hrun)
    as [[-> ->]|(Hreq & l1 & e & l2 & Heq & Hc & HA & Hal & Hst')].
  { split; [reflexivity|]. split; [reflexivity|].
    simpl. repeat split; assumption. }
  cbv zeta in Hc, HA, Hst'.
  set (n := num_elems * elem_size) in *.
  set (pad := padding_for_alignment (fst e) elem_size) in *.
  destruct (heap_inv_pool _ _ _ _ Hst') as (HB' & HP' & Hfl').
  split; [exact HB'|]. split; [exact HP'|].
  pose proof (padding_range (fst e) elem_size
                ltac:(destruct He, Hreq as (_ & _ & ? & _); lia)) as [Hpad _].
  fold pad in Hpad.
  unfold canonical in Hcan. rewrite Heq in Hcan.
  destruct (canonical_from_middle _ _ _ _ _ Hcan)
    as (Hc1 & Hgap & Hlen & Hend & Hc2 & Hbefore & Hafter).
  pose proof (last_end_ge _ _ _ Hc1) as Hlo.
  destruct Hwf as (HB & HP & Htop).
  destruct (Z.eqb_spec A nullptr) as [Hnull|_]; [unfold nullptr in Hnull; lia|].
  replace (A - m_pool st) with (fst e + pad) by lia.
  assert (forall x, x ∈ m_freelist st' ->
            x ∈ l1 \/ x ∈ remainder (fst e) (snd e) n pad \/ x ∈ l2) as Hwhere.
  { intros x Hx. rewrite Hfl' in Hx.
    apply elem_of_app in Hx as [Hx|Hx]; [left; exact Hx|].
    apply elem_of_app in Hx as [Hx|Hx]; [right; left|right; right]; exact Hx. }
  assert (e ∈ m_freelist st) as Hein.
  { rewrite Heq. apply elem_of_app. right. apply elem_of_cons. left. reflexivity. }
  unfold heap_inv. rewrite HP', Hfl'. repeat split.
  - destruct (remainder_canonical (last_end (-1) l1) (m_poolsize st)
                (fst e) (snd e) n pad) as [Hrc Hre]; try lia.
    apply (canonical_from_replace _ _ _ _ _ e Hcan); assumption.
  - apply Forall_cons. split; [simpl; lia|exact Hlive].
  - intros a x Ha Hx. rewrite <- Hfl' in Hx. unfold disjoint.
    apply elem_of_cons in Ha as [->|Ha]; simpl.
    + destruct (Hwhere x Hx) as [H1|[Hr|H2]].
      * destruct (Hbefore x H1) as (? & ? & ?). lia.
      * destruct (remainder_elem _ _ _ _ _ Hr) as (? & ? & ?); lia.
      * destruct (Hafter x H2) as (? & ? & ?). lia.
    + destruct (Hwhere x Hx) as [H1|[Hr|H2]].
      * apply Hdis; [exact Ha|]. rewrite Heq. apply elem_of_app. left. exact H1.
      * destruct (remainder_elem _ _ _ _ _ Hr) as (? & ? & ?); try lia.
        destruct (Hdis a e Ha Hein) as [?|?]; lia.
      * apply Hdis; [exact Ha|]. rewrite Heq. apply elem_of_app. right.
        apply elem_of_cons. right. exact H2.
  - apply Forall_forall. intros a Ha. unfold disjoint. simpl.
    destruct (Hdis a e Ha Hein) as [?|?].
    + right. lia.
    + left. lia.
  - exact Hpair.
Qed.

(** ** Free bytes *)

Lemma covers_nil (x : Z) : covers [] x <-> False.
Proof.
  split; [|contradiction]. intros (e & Hin & _).
  apply elem_of_nil in Hin. exact Hin.
Qed.

Lemma covers_cons (e : extent) (l : list extent) (x : Z) :
  covers (e :: l) x <-> (fst e <= x < fst e + snd e) \/ covers l x.
Proof.
  unfold covers. split.
  - intros (e' & Hin & Hx). apply elem_of_cons in Hin as [->|Hin].
    + left. exact Hx.
    + right. exists e'. split; assumption.
  - intros [Hx|(e' & Hin & Hx)].
    + exists e. split; [apply elem_of_cons; left; reflexivity|exact Hx].
    + exists e'. split; [apply elem_of_cons; right; exact Hin|exact Hx].
Qed.

Lemma covers_app (l1 l2 : list extent) (x : Z) :
  covers (l1 ++ l2) x <-> covers l1 x \/ covers l2 x.
Proof.
  unfold covers. split.
  - intros (e & Hin & Hx). apply elem_of_app in Hin as [Hin|Hin];
      [left|right]; exists e; split; assumption.
  - intros [(e & Hin & Hx)|(e & Hin & Hx)]; exists e;
      (split; [apply elem_of_app|exact Hx]); [left|right]; exact Hin.
Qed.

(** ** Positions next to the insertion point *)

Lemma list_snoc_case (l : list extent) :
  l = [] \/ exists l' x, l = l' ++ [x].
Proof.
  destruct l as [|y l'] using rev_ind; [left; reflexivity|].
  right. exists l', y. reflexivity.
Qed.

Lemma snoc_shape (l1 rest : list extent) (e1 : extent) :
  l1 ++ e1 :: rest = (l1 ++ [e1]) ++ rest /\ S (length l1) = length (l1 ++ [e1]).
Proof. rewrite <- app_assoc, length_app. simpl. split; [reflexivity|lia]. Qed.

Lemma lookup_first (l1 rest : list extent) (e1 : extent) :
  (l1 ++ e1 :: rest) !!! length l1 = e1.
Proof. apply lookup_total_middle. Qed.

Lemma lookup_second (l1 l2 : list extent) (e1 e2 : extent) :
  (l1 ++ e1 :: e2 :: l2) !! S (length l1) = Some e2.
Proof.
  destruct (snoc_shape l1 (e2 :: l2) e1) as [-> ->].
  apply list_lookup_middle. reflexivity.
Qed.

Lemma lookup_past_end (l1 : list extent) (e1 : extent) :
  (l1 ++ [e1]) !! S (length l1) = None.
Proof. apply lookup_ge_None. rewrite length_app. simpl. lia. Qed.

Lemma update_first (l1 rest : list extent) (e1 x : extent) :
  <[length l1 := x]> (l1 ++ e1 :: rest) = l1 ++ x :: rest.
Proof. apply update_middle. Qed.

Lemma update_second (l1 l2 : list extent) (e1 e2 x : extent) :
  <[S (length l1) := x]> (l1 ++ e1 :: e2 :: l2) = l1 ++ e1 :: x :: l2.
Proof.
  destruct (snoc_shape l1 (e2 :: l2) e1) as [-> ->].
  rewrite update_middle, <- app_assoc. reflexivity.
Qed.

Lemma delete_second (l1 l2 : list extent) (e1 e2 : extent) :
  delete (S (length l1)) (l1 ++ e1 :: e2 :: l2) = l1 ++ e1 :: l2.
Proof.
  destruct (snoc_shape l1 (e2 :: l2) e1) as [-> ->].
  rewrite delete_middle, <- app_assoc. reflexivity.
Qed.

Lemma vec_insert_second (l1 l2 : list extent) (e1 x : extent) :
  vec_insert (S (length l1)) x (l1 ++ e1 :: l2) = l1 ++ e1 :: x :: l2.
Proof.
  destruct (snoc_shape l1 l2 e1) as [-> ->].
  rewrite vec_insert_middle, <- app_assoc. reflexivity.
Qed.

Lemma length_second (l1 l2 : list extent) (e1 : extent) :
  length (l1 ++ e1 :: l2) = (S (length l1) + length l2)%nat.
Proof. rewrite length_app. simpl. lia. Qed.

(** [lower_bound] cuts the list where the offsets stop being below
    [start]. *)
Lemma lower_bound_split (fl : list extent) (start : Z) :
  exists l1 l2, fl = l1 ++ l2 /\ lower_bound fl start = length l1
                /\ (forall e, e ∈ l1 -> fst e < start)
                /\ (forall e l2', l2 = e :: l2' -> start <= fst e).
Proof.
  induction fl as [|e fl (l1 & l2 & Heq & Hlb & Hlow & Hhigh)].
  - exists [], []. repeat split; try reflexivity.
    + intros e Hin. apply elem_of_nil in Hin. contradiction.
    + intros e l2' Habs. discriminate.
  - simpl. destruct (Z.ltb_spec (fst e) start) as [Hlt|Hge].
    + exists (e :: l1), l2. simpl. rewrite Hlb, Heq. repeat split; try reflexivity.
      * intros x Hin. apply elem_of_cons in Hin as [->|Hin]; [exact Hlt|apply Hlow, Hin].
      * exact Hhigh.
    + exists [], (e :: fl). repeat split; try reflexivity.
      * intros x Hin. apply elem_of_nil in Hin. contradiction.
      * intros x l2' Hx. injection Hx as <- _. exact Hge.
Qed.

(** ** The release of a range *)

Ltac unwrap :=
  repeat match goal with
         | |- context [wrap ?x] => rewrite (wrap_small x) by lia
         end.

Ltac canonical_tail :=
  try (apply canonical_from_app; split; [assumption|]);
  simpl; repeat split; try lia;
  try (eapply canonical_from_weaken; [|eassumption]; lia).

Lemma total_length_app (l1 l2 : list extent) :
  total_length (l1 ++ l2) = total_length l1 + total_length l2.
Proof.
  unfold total_length. induction l1 as [|e l1 IH]; simpl; [reflexivity|].
  rewrite IH. lia.
Qed.

Ltac total_tac :=
  rewrite ?total_length_app; unfold total_length; simpl; lia.

(** Giving back a range of positive length that is inside the pool and
    disjoint from every free extent: the release returns a canonical list,
    the free bytes are those of before together with the range, and their
    number has grown by the length of the range. *)
Lemma release_full (P : Z) (fl : list extent) (s n : Z) :
  canonical P fl -> P < size_modulus ->
  0 <= s -> 0 < n -> s + n <= P ->
  (forall e, e ∈ fl -> disjoint (s, n) e) ->
  exists fl', release fl s n = Ret fl' /\ canonical P fl'
              /\ (forall x, covers fl' x <-> covers fl x \/ s <= x < s + n)
              /\ total_length fl' = total_length fl + n.
Proof.
  intros Hcan HP Hs Hn Hend Hdis.
  destruct (lower_bound_split fl s) as (l1 & l2 & Heq & Hlb & Hlow & Hhigh).
  unfold release. rewrite Hlb. subst fl. unfold canonical in *.
  destruct (list_snoc_case l1) as [->|(l1' & e1 & ->)]; destruct l2 as [|e2 l2'].
  - (* the free list is empty *)
    simpl. destruct (Z.eqb_spec n 0); [lia|]. cbn [negb].
    eexists. split; [reflexivity|]. split; [simpl; repeat split; lia|].
    split; [|unfold vec_insert; total_tac].
    intros x. unfold vec_insert. simpl. rewrite covers_cons, covers_nil. simpl. tauto.
  - (* the range lies before the first extent *)
    simpl in Hcan. destruct Hcan as (H1 & H2 & H3 & H4).
    pose proof (Hhigh e2 l2' eq_refl) as Hge.
    assert (s + n <= fst e2) as Hbelow.
    { destruct (Hdis e2) as [?|?]; simpl in *; [apply elem_of_cons; left; reflexivity|lia|lia]. }
    cbn [app length Nat.ltb Nat.leb andb Nat.eqb negb pred].
    change ((e2 :: l2') !!! O) with e2.
    unwrap.
    destruct (Z.eqb_spec (s + n) (fst e2)) as [Hadj|Hadj]; unfold_bind; simpl.
    + eexists. split; [reflexivity|]. split; [|split; [|total_tac]].
      * simpl. repeat split; try lia.
        eapply canonical_from_weaken; [|eassumption]. simpl. lia.
      * intros x. rewrite !covers_cons. simpl. intuition lia.
    + destruct (Z.eqb_spec n 0); [lia|]. simpl.
      change (vec_insert 0 (s, n) (e2 :: l2')) with ((s, n) :: e2 :: l2').
      eexists. split; [reflexivity|]. split; [|split; [|total_tac]].
      * simpl. repeat split; try lia. assumption.
      * intros x. rewrite !covers_cons. simpl. tauto.
  - (* the range lies after the last extent *)
    rewrite app_nil_r in *.
    destruct (canonical_from_middle _ _ _ _ _ Hcan) as (Hc1 & Hgap & Hlen & He1 & _).
    assert (fst e1 + snd e1 <= s) as Habove.
    { pose proof (Hlow e1 ltac:(apply elem_of_app; right; apply elem_of_cons; left; reflexivity)).
      destruct (Hdis e1) as [?|?]; simpl in *;
        [apply elem_of_app; right; apply elem_of_cons; left; reflexivity|lia|lia]. }
    pose proof (last_end_ge _ _ _ Hc1) as Hlo.
    rewrite length_app. cbn [length]. replace (length l1' + 1)%nat with (S (length l1')) by lia.
    rewrite Nat.ltb_irrefl. cbn [andb Nat.eqb negb pred].
    rewrite lookup_first. unwrap.
    destruct (Z.eqb_spec (fst e1 + snd e1) s) as [Hadj|Hadj].
    + destruct (Z.eqb_spec n 0); [lia|]. cbn [negb]. unfold_bind.
      rewrite Z.eqb_refl. cbn [negb].
      rewrite update_first.
      eexists. split; [reflexivity|]. split; [|split; [|total_tac]].
      * canonical_tail.
      * intros x. rewrite !covers_app, !covers_cons, !covers_nil. simpl. intuition lia.
    + unfold_bind. destruct (Z.eqb_spec n 0); [lia|]. cbn [negb].
      replace (l1' ++ [e1]) with (l1' ++ e1 :: []) by reflexivity.
      rewrite vec_insert_second.
      eexists. split; [reflexivity|]. split; [|split; [|total_tac]].
      * canonical_tail.
      * intros x. rewrite !covers_app, !covers_cons, !covers_nil. simpl. tauto.
  - (* the range lies between two extents *)
    rewrite <- app_assoc in *. cbn [app] in *.
    destruct (canonical_from_middle _ _ _ _ _ Hcan) as (Hc1 & Hgap & Hlen & He1 & Hc2 & _).
    simpl in Hc2. destruct Hc2 as (G1 & G2 & G3 & G4).
    pose proof (last_end_ge _ _ _ Hc1) as Hlo.
    assert (fst e1 + snd e1 <= s) as Habove.
    { pose proof (Hlow e1 ltac:(apply elem_of_app; right; apply elem_of_cons; left; reflexivity)).
      destruct (Hdis e1) as [?|?]; simpl in *;
        [apply elem_of_app; right; apply elem_of_cons; left; reflexivity|lia|lia]. }
    pose proof (Hhigh e2 l2' eq_refl) as Hge.
    assert (s + n <= fst e2) as Hbelow.
    { destruct (Hdis e2) as [?|?]; simpl in *;
        [apply elem_of_app; right; apply elem_of_cons; right;
         apply elem_of_cons; left; reflexivity|lia|lia]. }
    rewrite length_app. cbn [length]. replace (length l1' + 1)%nat with (S (length l1')) by lia.
    rewrite length_second.
    assert ((S (length l1') <? S (length l1') + length (e2 :: l2'))%nat = true) as ->.
    { apply Nat.ltb_lt. simpl. lia. }
    cbn [andb Nat.eqb negb pred].
    rewrite (list_lookup_total_correct _ _ _ (lookup_second l1' l2' e1 e2)).
    unwrap.
    destruct (Z.eqb_spec (s + n) (fst e2)) as [Hadj2|Hadj2].
    + rewrite update_second, lookup_first, lookup_second. unwrap.
      destruct (Z.eqb_spec (fst e1 + snd e1) s) as [Hadj1|Hadj1].
      * rewrite Z.eqb_refl. cbn [negb snd]. unwrap.
        rewrite update_first, delete_second. unfold_bind. rewrite Z.eqb_refl. cbn [negb].
        eexists. split; [reflexivity|]. split; [|split; [|total_tac]].
        -- canonical_tail.
        -- intros x. rewrite !covers_app, !covers_cons. simpl. intuition lia.
      * unfold_bind. rewrite Z.eqb_refl. cbn [negb].
        eexists. split; [reflexivity|]. split; [|split; [|total_tac]].
        -- canonical_tail.
        -- intros x. rewrite !covers_app, !covers_cons. simpl. intuition lia.
    + rewrite lookup_first. unwrap.
      destruct (Z.eqb_spec (fst e1 + snd e1) s) as [Hadj1|Hadj1].
      * destruct (Z.eqb_spec n 0); [lia|]. cbn [negb]. unwrap.
        rewrite update_first. unfold_bind. rewrite Z.eqb_refl. cbn [negb].
        eexists. split; [reflexivity|]. split; [|split; [|total_tac]].
        -- canonical_tail.
        -- intros x. rewrite !covers_app, !covers_cons. simpl. intuition lia.
      * unfold_bind. destruct (Z.eqb_spec n 0); [lia|]. cbn [negb].
        rewrite vec_insert_second.
        eexists. split; [reflexivity|]. split; [|split; [|total_tac]].
        -- canonical_tail.
        -- intros x. rewrite !covers_app, !covers_cons. simpl. tauto.
Qed.

Lemma release_spec (P : Z) (fl : list extent) (s n : Z) :
  canonical P fl -> P < size_modulus ->
  0 <= s -> 0 < n -> s + n <= P ->
  (forall e, e ∈ fl -> disjoint (s, n) e) ->
  exists fl', release fl s n = Ret fl' /\ canonical P fl'
              /\ forall x, covers fl' x <-> covers fl x \/ s <= x < s + n.
Proof.
  intros Hcan HP Hs Hn Hend Hdis.
  destruct (release_full P fl s n Hcan HP Hs Hn Hend Hdis)
    as (fl' & Hrel & Hcan' & Hcov & _).
  exists fl'. split; [exact Hrel|]. split; [exact Hcan'|exact Hcov].
Qed.

(** Whatever the free extents around it, a release of a range of positive
    length inside the pool returns, and the bytes covered afterwards are
    those covered before together with the range. *)
Lemma release_covers (P : Z) (fl : list extent) (s n : Z) :
  canonical P fl -> 3 * P < size_modulus ->
  0 <= s -> 0 < n -> s + n <= P ->
  exists fl', release fl s n = Ret fl'
              /\ forall x, covers fl' x <-> covers fl x \/ in_range s n x.
Proof.
  intros Hcan HP Hs Hn Hend. unfold in_range.
  destruct (lower_bound_split fl s) as (l1 & l2 & Heq & Hlb & Hlow & Hhigh).
  unfold release. rewrite Hlb. subst fl. unfold canonical in *.
  destruct (list_snoc_case l1) as [->|(l1' & e1 & ->)]; destruct l2 as [|e2 l2'].
  - (* the free list is empty *)
    simpl. destruct (Z.eqb_spec n 0); [lia|]. cbn [negb].
    eexists. split; [reflexivity|].
    intros x. unfold vec_insert. simpl. rewrite covers_cons, covers_nil. simpl. tauto.
  - (* the range lies before the first extent *)
    simpl in Hcan. destruct Hcan as (H1 & H2 & H3 & H4).
    pose proof (Hhigh e2 l2' eq_refl) as Hge.
    cbn [app length Nat.ltb Nat.leb andb Nat.eqb negb pred].
    change ((e2 :: l2') !!! O) with e2.
    unwrap.
    destruct (Z.eqb_spec (s + n) (fst e2)) as [Hadj|Hadj]; unfold_bind; simpl.
    + eexists. split; [reflexivity|].
      intros x. rewrite !covers_cons. simpl. intuition lia.
    + destruct (Z.eqb_spec n 0); [lia|]. simpl.
      change (vec_insert 0 (s, n) (e2 :: l2')) with ((s, n) :: e2 :: l2').
      eexists. split; [reflexivity|].
      intros x. rewrite !covers_cons. simpl. tauto.
  - (* the range lies after the last extent *)
    rewrite app_nil_r in *.
    destruct (canonical_from_middle _ _ _ _ _ Hcan) as (Hc1 & Hgap & Hlen & He1 & _).
    pose proof (last_end_ge _ _ _ Hc1) as Hlo.
    rewrite length_app. cbn [length]. replace (length l1' + 1)%nat with (S (length l1')) by lia.
    rewrite Nat.ltb_irrefl. cbn [andb Nat.eqb negb pred].
    rewrite lookup_first. unwrap.
    destruct (Z.eqb_spec (fst e1 + snd e1) s) as [Hadj|Hadj].
    + destruct (Z.eqb_spec n 0); [lia|]. cbn [negb]. unfold_bind.
      rewrite Z.eqb_refl. cbn [negb].
      rewrite update_first.
      eexists. split; [reflexivity|].
      intros x. rewrite !covers_app, !covers_cons, !covers_nil. simpl. intuition lia.
    + unfold_bind. destruct (Z.eqb_spec n 0); [lia|]. cbn [negb].
      replace (l1' ++ [e1]) with (l1' ++ e1 :: []) by reflexivity.
      rewrite vec_insert_second.
      eexists. split; [reflexivity|].
      intros x. rewrite !covers_app, !covers_cons, !covers_nil. simpl. tauto.
  - (* the range lies between two extents *)
    rewrite <- app_assoc in *. cbn [app] in *.
    destruct (canonical_from_middle _ _ _ _ _ Hcan) as (Hc1 & Hgap & Hlen & He1 & Hc2 & _).
    simpl in Hc2. destruct Hc2 as (G1 & G2 & G3 & G4).
    pose proof (last_end_ge _ _ _ Hc1) as Hlo.
    pose proof (Hhigh e2 l2' eq_refl) as Hge.
    rewrite length_app. cbn [length]. replace (length l1' + 1)%nat with (S (length l1')) by lia.
    rewrite length_second.
    assert ((S (length l1') <? S (length l1') + length (e2 :: l2'))%nat = true) as ->.
    { apply Nat.ltb_lt. simpl. lia. }
    cbn [andb Nat.eqb negb pred].
    rewrite (list_lookup_total_correct _ _ _ (lookup_second l1' l2' e1 e2)).
    unwrap.
    destruct (Z.eqb_spec (s + n) (fst e2)) as [Hadj2|Hadj2].
    + rewrite update_second, lookup_first, lookup_second. unwrap.
      destruct (Z.eqb_spec (fst e1 + snd e1) s) as [Hadj1|Hadj1].
      * rewrite Z.eqb_refl. cbn [negb snd]. unwrap.
        rewrite update_first, delete_second. unfold_bind. rewrite Z.eqb_refl. cbn [negb].
        eexists. split; [reflexivity|].
        intros x. rewrite !covers_app, !covers_cons. simpl. intuition lia.
      * unfold_bind. rewrite Z.eqb_refl. cbn [negb].
        eexists. split; [reflexivity|].
        intros x. rewrite !covers_app, !covers_cons. simpl. intuition lia.
    + rewrite lookup_first. unwrap.
      destruct (Z.eqb_spec (fst e1 + snd e1) s) as [Hadj1|Hadj1].
      * destruct (Z.eqb_spec n 0); [lia|]. cbn [negb]. unwrap.
        rewrite update_first. unfold_bind. rewrite Z.eqb_refl. cbn [negb].
        eexists. split; [reflexivity|].
        intros x. rewrite !covers_app, !covers_cons. simpl. intuition lia.
      * unfold_bind. destruct (Z.eqb_spec n 0); [lia|]. cbn [negb].
        rewrite vec_insert_second.
        eexists. split; [reflexivity|].
        intros x. rewrite !covers_app, !covers_cons. simpl. tauto.
Qed.

(** ** deallocate keeps the invariant *)

Lemma disjoint_sym (a b : extent) : disjoint a b -> disjoint b a.
Proof. unfold disjoint. tauto. Qed.

Lemma all_disjoint_middle (l1 l2 : list extent) (a : extent) :
  all_disjoint (l1 ++ a :: l2) ->
  all_disjoint (l1 ++ l2) /\ forall b, b ∈ l1 ++ l2 -> disjoint a b.
Proof.
  induction l1 as [|c l1 IH]; simpl.
  - intros [Hall Hrest]. split; [exact Hrest|].
    intros b Hb. rewrite Forall_forall in Hall. apply Hall. exact Hb.
  - intros [Hall Hrest]. destruct (IH Hrest) as [IH1 IH2].
    apply Forall_app in Hall as [Hall1 Hall2].
    apply Forall_cons in Hall2 as [Hca Hall2].
    split; [split; [apply Forall_app; split; assumption|exact IH1]|].
    intros b Hb. apply elem_of_cons in Hb as [->|Hb].
    + apply disjoint_sym. exact Hca.
    + apply IH2. exact Hb.
Qed.

(** Two ranges of positive length that share no byte are disjoint. *)
Lemma disjoint_by_bytes (a e : extent) :
  0 < snd a -> 0 < snd e ->
  (forall x, fst a <= x < fst a + snd a -> fst e <= x < fst e + snd e -> False) ->
  disjoint a e.
Proof.
  intros Ha He Hno. unfold disjoint.
  destruct (Z_le_gt_dec (fst a + snd a) (fst e)) as [?|Hgt]; [left; assumption|].
  destruct (Z_le_gt_dec (fst e + snd e) (fst a)) as [?|Hgt']; [right; assumption|].
  exfalso. apply (Hno (Z.max (fst a) (fst e))); lia.
Qed.

(** Giving back an outstanding allocation always succeeds. *)
Lemma deallocate_outstanding_full
    (st : mlock_allocator) (live1 live2 : list extent) (p num_elems elem_size : Z) :
  pool_wf st ->
  heap_inv st (live1 ++ (p - m_pool st, num_elems * elem_size) :: live2) ->
  is_size_t num_elems -> is_size_t elem_size ->
  exists st',
    deallocate st p num_elems elem_size = Ret (true, st')
    /\ m_pool st' = m_pool st /\ m_poolsize st' = m_poolsize st
    /\ heap_inv st' (live1 ++ live2)
    /\ (forall x, covers (m_freelist st') x
                  <-> covers (m_freelist st) x
                      \/ p - m_pool st <= x < p - m_pool st + num_elems * elem_size)
    /\ total_length (m_freelist st')
       = total_length (m_freelist st) + num_elems * elem_size.
Proof.
  intros Hwf (Hcan & Hlive & Hdis & Hpair) Hn He.
  set (s := p - m_pool st) in *. set (n := num_elems * elem_size) in *.
  assert ((s, n) ∈ live1 ++ (s, n) :: live2) as Hmem.
  { apply elem_of_app. right. apply elem_of_cons. left. reflexivity. }
  rewrite Forall_forall in Hlive.
  destruct (Hlive _ Hmem) as (Hs & Hpos & Hend). simpl in Hs, Hpos, Hend.
  pose proof Hwf as (HB & HP & Htop).
  unfold MLOCK_UPPER_BOUND in HP.
  assert (elem_size <> 0) as Hnz by (unfold n in Hpos; nia).
  assert (n < size_modulus) as Hno by (rewrite size_modulus_eq; lia).
  rewrite deallocate_checks_passed by assumption. cbv zeta.
  fold n.
  destruct (Z.ltb_spec p (m_pool st)) as [?|_]; [unfold s in Hs; lia|].
  destruct (Z.geb_spec p (m_pool st + m_poolsize st)) as [?|_]; [unfold s in *; lia|].
  cbn [orb].
  rewrite (wrap_small (p + n)) by (unfold s in *; lia).
  destruct (Z.leb_spec (p + n) (m_pool st + m_poolsize st)) as [_|?];
    [|unfold s in *; lia].
  rewrite (wrap_small (p - m_pool st)) by (unfold s in *; lia).
  fold s.
  destruct (release_full (m_poolsize st) (m_freelist st) s n Hcan
              ltac:(lia) Hs Hpos Hend ltac:(intros e Hin; apply Hdis; assumption))
    as (fl' & Hrel & Hcan' & Hcov & Htot).
  rewrite Hrel. unfold_bind.
  eexists. split; [reflexivity|].
  split; [reflexivity|]. split; [reflexivity|].
  destruct (all_disjoint_middle _ _ _ Hpair) as [Hpair' Hfreed].
  split; [|split; [exact Hcov|exact Htot]].
  unfold heap_inv. cbn [m_poolsize m_freelist with_freelist].
  split; [exact Hcan'|]. split; [|split; [|exact Hpair']].
  - apply Forall_forall. intros a Ha. apply Hlive.
    apply elem_of_app in Ha as [Ha|Ha]; apply elem_of_app;
      [left; exact Ha|right; apply elem_of_cons; right; exact Ha].
  - intros a e Ha He'.
    assert (a ∈ live1 ++ (s, n) :: live2) as Ha'.
    { apply elem_of_app in Ha as [Ha|Ha]; apply elem_of_app;
        [left; exact Ha|right; apply elem_of_cons; right; exact Ha]. }
    destruct (Hlive _ Ha') as (Ha0 & Han & Haend).
    destruct (canonical_from_elem _ _ _ _ Hcan' He') as (_ & Hel & _).
    apply disjoint_by_bytes; try assumption.
    intros x Hxa Hxe.
    assert (covers fl' x) as Hc by (exists e; split; assumption).
    apply Hcov in Hc as [(e0 & Hin0 & Hx0)|Hxs].
    + destruct (Hdis a e0 Ha' Hin0) as [?|?]; lia.
    + destruct (Hfreed a Ha) as [?|?]; simpl in *; lia.
Qed.

Lemma deallocate_outstanding
    (st : mlock_allocator) (live1 live2 : list extent) (p num_elems elem_size : Z) :
  pool_wf st ->
  heap_inv st (live1 ++ (p - m_pool st, num_elems * elem_size) :: live2) ->
  is_size_t num_elems -> is_size_t elem_size ->
  exists st',
    deallocate st p num_elems elem_size = Ret (true, st')
    /\ m_pool st' = m_pool st /\ m_poolsize st' = m_poolsize st
    /\ heap_inv st' (live1 ++ live2)
    /\ (forall x, covers (m_freelist st') x
                  <-> covers (m_freelist st) x
                      \/ p - m_pool st <= x < p - m_pool st + num_elems * elem_size).
Proof.
  intros Hwf Hinv Hn He.
  destruct (deallocate_outstanding_full st live1 live2 p num_elems elem_size
              Hwf Hinv Hn He) as (st' & H1 & H2 & H3 & H4 & H5 & _).
  exists st'. repeat (split; [assumption|]). exact H5.
Qed.

Lemma deallocate_preserves_inv
    (st st' : mlock_allocator) (live1 live2 : list extent)
    (p num_elems elem_size : Z) (b : bool) :
  pool_wf st ->
  heap_inv st (live1 ++ (p - m_pool st, num_elems * elem_size) :: live2) ->
  is_size_t num_elems -> is_size_t elem_size ->
  deallocate st p num_elems elem_size = Ret (b, st') ->
  b = true
  /\ m_pool st' = m_pool st /\ m_poolsize st' = m_poolsize st
  /\ heap_inv st' (live1 ++ live2).
Proof.
  intros Hwf Hinv Hn He Hrun.
  destruct (deallocate_outstanding st live1 live2 p num_elems elem_size Hwf Hinv Hn He)
    as (st'' & Hrun' & HB & HP & Hinv' & _).
  rewrite Hrun' in Hrun. injection Hrun as <- <-.
  split; [reflexivity|]. split; [exact HB|]. split; [exact HP|exact Hinv'].
Qed.

(** ** Every reachable state is canonical *)

Lemma fresh_heap_inv (B P : Z) (mem : Z -> Z) :
  0 < P -> heap_inv (fresh B P mem) [].
Proof.
  intros HP. unfold heap_inv, canonical. simpl.
  split; [repeat split; lia|]. split; [constructor|]. split; [|exact I].
  intros a e Ha. apply elem_of_nil in Ha. contradiction.
Qed.

Lemma reachable_inv (B P : Z) (mem : Z -> Z) (st : mlock_allocator) (live : list extent) :
  pool_wf (fresh B P mem) ->
  reachable B P mem st live ->
  pool_wf st /\ m_pool st = B /\ m_poolsize st = P /\ heap_inv st live.
Proof.
  intros Hwf Hreach.
  induction Hreach as
    [|st live num_elems elem_size A st' Hreach (IHwf & IHB & IHP & IHinv) Hn He Hpos Hrun
     |st live1 live2 p num_elems elem_size b st' Hreach (IHwf & IHB & IHP & IHinv) Hn He Hrun].
  - split; [exact Hwf|]. split; [reflexivity|]. split; [reflexivity|].
    apply fresh_heap_inv. destruct Hwf as (_ & HP & _). simpl in HP. lia.
  - destruct (allocate_preserves_inv st st' live num_elems elem_size A
                IHwf IHinv Hn He Hpos Hrun) as (HB' & HP' & Hinv').
    rewrite IHB in Hinv'.
    split; [|split; [congruence|split; [congruence|exact Hinv']]].
    unfold pool_wf in *. rewrite HB', HP'. exact IHwf.
  - rewrite <- IHB in IHinv.
    destruct (deallocate_preserves_inv st st' live1 live2 p num_elems elem_size b
                IHwf IHinv Hn He Hrun) as (_ & HB' & HP' & Hinv').
    split; [|split; [congruence|split; [congruence|exact Hinv']]].
    unfold pool_wf in *. rewrite HB', HP'. exact IHwf.
Qed.

(** C3, as amended: after any sequence of allocate calls for a positive
    number of bytes and of deallocate calls that give back an outstanding
    allocation, starting from the free list [(0, P)], the free list is sorted
    strictly by offset, its extents are pairwise disjoint, and no two
    consecutive extents are adjacent. *)
Theorem reachable_freelist_canonical
    (B P : Z) (mem : Z -> Z) (st : mlock_allocator) (live : list extent) :
  pool_wf (fresh B P mem) ->
  reachable B P mem st live ->
  sorted_by_offset (m_freelist st)
  /\ pairwise_disjoint (m_freelist st)
  /\ non_adjacent (m_freelist st).
Proof.
  intros Hwf Hreach.
  destruct (reachable_inv B P mem st live Hwf Hreach) as (_ & _ & _ & Hcan & _).
  split; [eapply canonical_sorted; eauto|].
  split; [eapply canonical_pairwise_disjoint; eauto|eapply canonical_non_adjacent; eauto].
Qed.

Lemma reachable_freelist_canonical_witness :
  let st0 := fresh 4096 1024 (fun _ => 0) in
  let st1 := with_freelist st0 [(1, 7); (16, 1008)]
               (clear_mem 4104 8 (clear_mem 4096 1 (memory st0))) in
  sorted_by_offset (m_freelist st1)
  /\ pairwise_disjoint (m_freelist st1)
  /\ non_adjacent (m_freelist st1).
Proof.
  intros st0 st1.
  apply (reachable_freelist_canonical 4096 1024 (fun _ => 0) st1 [(8, 8); (0, 1)]).
  - unfold pool_wf. simpl. rewrite size_modulus_eq. unfold MLOCK_UPPER_BOUND. lia.
  - apply (reach_allocate 4096 1024 (fun _ => 0)
             (with_freelist st0 [(1, 1023)] (clear_mem 4096 1 (memory st0)))
             [(0, 1)] 1 8 4104 st1).
    + apply (reach_allocate 4096 1024 (fun _ => 0) st0 [] 1 1 4096).
      * apply reach_fresh.
      * unfold is_size_t. rewrite size_modulus_eq. lia.
      * unfold is_size_t. rewrite size_modulus_eq. lia.
      * lia.
      * reflexivity.
    + unfold is_size_t. rewrite size_modulus_eq. lia.
    + unfold is_size_t. rewrite size_modulus_eq. lia.
    + lia.
    + reflexivity.
Defined.

(** C3, as stated, fails on two kinds of calls.  A request for zero bytes
    that needs alignment padding splits an extent into two adjacent ones:
    after one byte has been allocated, [allocate(0, 8)] leaves the free list
    [(1, 7); (8, 1016)].  A deallocate call for a range that is not
    outstanding inserts it as it comes: on the fresh pool, giving back eight
    bytes at the base leaves [(0, 8); (0, 1024)]. *)
Lemma freelist_not_canonical_after_any_calls :
  (exists st, run (fresh 4096 1024 (fun _ => 0)) [Allocate 1 1; Allocate 0 8] = Ret st
              /\ m_freelist st = [(1, 7); (8, 1016)])
  /\ (exists st, run (fresh 4096 1024 (fun _ => 0)) [Deallocate 4096 8 1] = Ret st
                 /\ m_freelist st = [(0, 8); (0, 1024)])
  /\ ~ canonical_after_any_calls.
Proof.
  assert (exists st, run (fresh 4096 1024 (fun _ => 0)) [Allocate 1 1; Allocate 0 8] = Ret st
                     /\ m_freelist st = [(1, 7); (8, 1016)]) as Hzero.
  { eexists. split; [vm_compute; reflexivity|reflexivity]. }
  split; [exact Hzero|]. split.
  { eexists. split; [vm_compute; reflexivity|reflexivity]. }
  intros Hclaim. destruct Hzero as (st & Hrun & Hfl).
  assert (pool_wf (fresh 4096 1024 (fun _ => 0))) as Hwf.
  { unfold pool_wf. simpl. rewrite size_modulus_eq. unfold MLOCK_UPPER_BOUND. lia. }
  destruct (Hclaim 4096 1024 (fun _ => 0) [Allocate 1 1; Allocate 0 8] st Hwf Hrun)
    as (_ & _ & Hadj).
  rewrite Hfl in Hadj.
  specialize (Hadj O (1, 7) (8, 1016) eq_refl eq_refl). simpl in Hadj. lia.
Qed.

(** ** The round trip *)

Lemma covers_above (lo P : Z) (l : list extent) (x : Z) :
  canonical_from lo P l -> covers l x -> lo < x.
Proof.
  intros Hc (e & Hin & Hx).
  destruct (canonical_from_elem _ _ _ _ Hc Hin) as (? & _). lia.
Qed.

(** A canonical list is determined by the bytes it covers. *)
Lemma canonical_covers_unique (P : Z) (l l' : list extent) (lo lo' : Z) :
  canonical_from lo P l -> canonical_from lo' P l' ->
  (forall x, covers l x <-> covers l' x) ->
  l = l'.
Proof.
  revert l' lo lo'. induction l as [|e r IH]; intros l' lo lo' Hc Hc' Hsame.
  - destruct l' as [|e' r']; [reflexivity|]. exfalso.
    simpl in Hc'. destruct Hc' as (_ & Hlen & _).
    apply (covers_nil (fst e')). apply Hsame. apply covers_cons. left. lia.
  - destruct l' as [|e' r'].
    { exfalso. simpl in Hc. destruct Hc as (_ & Hlen & _).
      apply (covers_nil (fst e)). apply Hsame. apply covers_cons. left. lia. }
    simpl in Hc, Hc'.
    destruct Hc as (Hlo & Hlen & Hend & Hr).
    destruct Hc' as (Hlo' & Hlen' & Hend' & Hr').
    assert (forall x, covers (e :: r) x <->
                      (fst e <= x < fst e + snd e) \/ (fst e + snd e < x /\ covers r x))
      as Hsplit.
    { intros x. rewrite covers_cons. split; [|tauto].
      intros [?|Hcr]; [left; assumption|].
      right. split; [eapply covers_above; eauto|exact Hcr]. }
    assert (forall x, covers (e' :: r') x <->
                      (fst e' <= x < fst e' + snd e') \/ (fst e' + snd e' < x /\ covers r' x))
      as Hsplit'.
    { intros x. rewrite covers_cons. split; [|tauto].
      intros [?|Hcr]; [left; assumption|].
      right. split; [eapply covers_above; eauto|exact Hcr]. }
    assert (fst e = fst e') as Hfst.
    { assert (covers (e' :: r') (fst e)) as H1
        by (apply Hsame, Hsplit; left; lia).
      assert (covers (e :: r) (fst e')) as H2
        by (apply Hsame, Hsplit'; left; lia).
      apply Hsplit' in H1. apply Hsplit in H2. lia. }
    assert (snd e = snd e') as Hsnd.
    { destruct (Z.lt_trichotomy (snd e) (snd e')) as [Hlt|[Heq|Hgt]]; [|exact Heq|].
      - assert (covers (e :: r) (fst e + snd e)) as H1
          by (apply Hsame, Hsplit'; left; lia).
        apply Hsplit in H1. lia.
      - assert (covers (e' :: r') (fst e' + snd e')) as H1
          by (apply Hsame, Hsplit; left; lia).
        apply Hsplit' in H1. lia. }
    assert (e = e') as <- by (destruct e, e'; simpl in *; congruence).
    f_equal. apply (IH r' _ _ Hr Hr').
    intros x. split; intros Hx.
    + pose proof (covers_above _ _ _ _ Hr Hx) as Hgt.
      assert (covers (e :: r') x) as H1
        by (apply Hsame, covers_cons; right; exact Hx).
      apply Hsplit' in H1. destruct H1 as [?|[_ ?]]; [lia|assumption].
    + pose proof (covers_above _ _ _ _ Hr' Hx) as Hgt.
      assert (covers (e :: r) x) as H1
        by (apply Hsame, covers_cons; right; exact Hx).
      apply Hsplit in H1. destruct H1 as [?|[_ ?]]; [lia|assumption].
Qed.

Lemma covers_remainder (off len n pad x : Z) :
  0 <= pad -> 0 <= n -> n + pad <= len ->
  (covers (remainder off len n pad) x
   <-> off <= x < off + len /\ ~ (off + pad <= x < off + pad + n)).
Proof.
  intros Hpad Hn Hfit. unfold remainder.
  destruct (Z.eqb_spec pad 0) as [Hp|Hp];
    destruct (Z.eqb_spec len (n + pad)) as [Hl|Hl];
    cbn [app]; rewrite ?covers_cons, ?covers_nil; simpl; lia.
Qed.

(** allocate followed at once by the matching deallocate, for a request of
    positive size: the free list and the pool are what they were. *)
Lemma round_trip_core
    (st st' : mlock_allocator) (num_elems elem_size A : Z) :
  pool_wf st -> canonical (m_poolsize st) (m_freelist st) ->
  is_size_t num_elems -> is_size_t elem_size ->
  0 < num_elems * elem_size ->
  allocate st num_elems elem_size = Ret (A, st') ->
  A <> nullptr ->
  exists st'', deallocate st' A num_elems elem_size = Ret (true, st'')
               /\ m_freelist st'' = m_freelist st
               /\ m_pool st'' = m_pool st /\ m_poolsize st'' = m_poolsize st.
Proof.
  intros Hwf Hcan Hn He Hpos Hrun Hnonnull.
  assert (heap_inv st []) as Hinv.
  { split; [exact Hcan|]. split; [constructor|]. split; [|exact I].
    intros a e Ha. apply elem_of_nil in Ha. contradiction. }
  destruct (allocate_preserves_inv st st' [] num_elems elem_size A
              Hwf Hinv Hn He Hpos Hrun) as (HB' & HP' & Hinv').
  destruct (Z.eqb_spec A nullptr) as [|_]; [contradiction|].
  assert (pool_wf st') as Hwf' by (unfold pool_wf in *; rewrite HB', HP'; exact Hwf).
  rewrite <- HB' in Hinv'.
  destruct (deallocate_outstanding st' [] [] A num_elems elem_size Hwf' Hinv' Hn He)
    as (st'' & Hrun' & HB'' & HP'' & (Hcan'' & _) & Hcov).
  exists st''. split; [exact Hrun'|].
  split; [|split; congruence].
  rewrite HP'', HP' in Hcan''.
  apply (canonical_covers_unique _ _ _ _ _ Hcan'' Hcan).
  intros x. rewrite Hcov. clear Hcov Hrun' Hcan''.
  pose proof (canonical_in_pool st Hcan) as Hfl.
  destruct (allocate_inv st st' num_elems elem_size A Hwf Hfl Hn He Hrun)
    as [[Hnull _]|(Hreq & l1 & e & l2 & Heq & Hc & HA & Hal & Hst')];
    [contradiction|].
  cbv zeta in Hc, HA, Hst'.
  pose proof (padding_range (fst e) elem_size
                ltac:(destruct He, Hreq as (_ & _ & ? & _); lia)) as [Hpad _].
  rewrite HB'. rewrite Hst' at 1. cbn [m_freelist with_freelist]. rewrite Heq.
  rewrite !covers_app, covers_cons, covers_remainder by lia.
  destruct (Z_le_gt_dec (fst e + padding_for_alignment (fst e) elem_size) x);
    destruct (Z_lt_ge_dec x (fst e + padding_for_alignment (fst e) elem_size
                             + num_elems * elem_size));
    intuition lia.
Qed.

(** X16: the round trip for requests of positive size: on a canonical free
    list, a call of allocate that returns an address, followed at once by
    the matching deallocate, gives the free list back exactly as it was. *)
Theorem round_trip_positive_size
    (st st' : mlock_allocator) (num_elems elem_size A : Z) :
  pool_wf st -> canonical (m_poolsize st) (m_freelist st) ->
  is_size_t num_elems -> is_size_t elem_size ->
  0 < num_elems * elem_size ->
  allocate st num_elems elem_size = Ret (A, st') ->
  A <> nullptr ->
  exists st'', deallocate st' A num_elems elem_size = Ret (true, st'')
               /\ m_freelist st'' = m_freelist st.
Proof.
  intros Hwf Hcan Hn He Hpos Hrun Hnonnull.
  destruct (round_trip_core st st' num_elems elem_size A
              Hwf Hcan Hn He Hpos Hrun Hnonnull) as (st'' & Hd & Hfl & _).
  exists st''. split; assumption.
Qed.

Lemma round_trip_positive_size_witness :
  let st := state_of 4096 1024 [(1, 1023)] in
  exists st' st'',
    allocate st 1 8 = Ret (4096 + 8, st')
    /\ deallocate st' (4096 + 8) 1 8 = Ret (true, st'')
    /\ m_freelist st'' = m_freelist st.
Proof.
  intros st.
  destruct (allocate st 1 8) as [[A st']| | |] eqn:Hrun; try discriminate Hrun.
  assert (A = 4096 + 8) as ->.
  { vm_compute in Hrun. injection Hrun as <- _. reflexivity. }
  exists st'.
  destruct (round_trip_positive_size st st' 1 8 (4096 + 8)) as (st'' & Hd & Hfl).
  - apply example_pool_wf.
  - unfold canonical. simpl. lia.
  - unfold is_size_t. rewrite size_modulus_eq. lia.
  - unfold is_size_t. rewrite size_modulus_eq. lia.
  - lia.
  - exact Hrun.
  - unfold nullptr. lia.
  - exists st''. split; [reflexivity|]. split; assumption.
Defined.

(** C2 at the failing input: with the free list [(1, 7); (16, 1008)] (one
    byte and eight aligned bytes are outstanding), [allocate(0, 8)] returns
    the address of offset 8 and leaves the free list alone; the matching
    [deallocate] takes the request of zero bytes for a range already merged
    forward, adds the next extent to the one that ends at offset 8 and
    erases it: the free list becomes [(1, 1015)], which covers the eight
    outstanding bytes.  With nothing free behind offset 8 the same call
    reads the past-the-end position. *)
Lemma zero_size_round_trip_corrupts :
  let st := state_of 4096 1024 [(1, 7); (16, 1008)] in
  canonical (m_poolsize st) (m_freelist st)
  /\ alloc_result (allocate st 0 8) = Ret (4096 + 8, [(1, 7); (16, 1008)])
  /\ dealloc_result (deallocate st (4096 + 8) 0 8) = Ret (true, [(1, 1015)])
  /\ deallocate (state_of 4096 1024 [(1, 7)]) (4096 + 8) 0 8 = Undefined
  /\ ~ round_trip_always.
Proof.
  intros st.
  assert (canonical (m_poolsize st) (m_freelist st)) as Hcan.
  { unfold canonical. simpl. lia. }
  split; [exact Hcan|]. split; [vm_compute; reflexivity|].
  split; [vm_compute; reflexivity|]. split; [vm_compute; reflexivity|].
  intros Hclaim.
  destruct (allocate st 0 8) as [[A st']| | |] eqn:Hrun; try discriminate Hrun.
  assert (A = 4096 + 8 /\ m_freelist st' = [(1, 7); (16, 1008)]
          /\ m_pool st' = 4096 /\ m_poolsize st' = 1024) as (-> & Hfl' & HB' & HP').
  { vm_compute in Hrun. injection Hrun as <- <-. repeat split; reflexivity. }
  destruct (Hclaim st 0 8 (4096 + 8) st') as (st'' & Hd & Hfl).
  - apply example_pool_wf.
  - exact Hcan.
  - unfold is_size_t. rewrite size_modulus_eq. lia.
  - unfold is_size_t. rewrite size_modulus_eq. lia.
  - exact Hrun.
  - unfold nullptr. lia.
  - assert (dealloc_result (deallocate st' (4096 + 8) 0 8) = Ret (true, [(1, 1015)])) as Hd'.
    { destruct st' as [P' B' fl' mem']. simpl in *. subst. vm_compute. reflexivity. }
    rewrite Hd in Hd'. simpl in Hd'. rewrite Hfl in Hd'. simpl in Hd'. discriminate Hd'.
Qed.

(** ** Construction and runs *)

(** A successful construction leaves either no pool at all or a pool whose
    free list is the single extent [(0, P)]. *)
Lemma construct_constructed
    (rlim_cur pool : Z) (mlock_ok : bool) (mem : Z -> Z) (st : mlock_allocator) :
  0 <= rlim_cur -> 0 < pool -> pool + MLOCK_UPPER_BOUND < size_modulus ->
  construct rlim_cur (Some pool) mlock_ok mem = Ret st ->
  constructed st
  /\ (m_pool st <> nullptr -> st = fresh pool (mlock_limit rlim_cur) mem)
  /\ canonical (m_poolsize st) (m_freelist st).
Proof.
  intros Hlim Hpool Htop. unfold construct.
  assert (0 <= mlock_limit rlim_cur <= MLOCK_UPPER_BOUND) as Hrange.
  { unfold mlock_limit, MLOCK_UPPER_BOUND. lia. }
  destruct (Z.eqb_spec (mlock_limit rlim_cur) 0) as [Hz|Hnz].
  - intros Hrun. injection Hrun as <-. split; [|split].
    + left. repeat split. simpl. exact Hz.
    + simpl. intros Habs. contradiction.
    + exact I.
  - destruct mlock_ok; [|discriminate]. intros Hrun. injection Hrun as <-.
    split; [|split].
    + right. unfold pool_wf. simpl. lia.
    + intros _. reflexivity.
    + unfold canonical. simpl. lia.
Qed.

Lemma run_app (st : mlock_allocator) (calls1 calls2 : list call) :
  run st (calls1 ++ calls2) = st' ← run st calls1 ; run st' calls2.
Proof.
  revert st. induction calls1 as [|c calls1 IH]; intros st; simpl; [reflexivity|].
  destruct (step st c) as [st1| | |]; simpl; [apply IH|reflexivity..].
Qed.

(** Every reachable state is the result of a run from the fresh pool. *)
Lemma reachable_run (B P : Z) (mem : Z -> Z) (st : mlock_allocator) (live : list extent) :
  reachable B P mem st live ->
  exists calls, run (fresh B P mem) calls = Ret st.
Proof.
  induction 1 as
    [|st live num_elems elem_size A st' _ [calls IH] _ _ _ Hrun
     |st live1 live2 p num_elems elem_size b st' _ [calls IH] _ _ Hrun].
  - exists []. reflexivity.
  - exists (calls ++ [Allocate num_elems elem_size]).
    rewrite run_app, IH. simpl. rewrite Hrun. reflexivity.
  - exists (calls ++ [Deallocate p num_elems elem_size]).
    rewrite run_app, IH. simpl. rewrite Hrun. reflexivity.
Qed.

(** * Further properties of the allocator *)

Lemma example_size (x : Z) : 0 <= x < 1048576 -> is_size_t x.
Proof. intros H. unfold is_size_t. rewrite size_modulus_eq. lia. Qed.

(** ** Alignment padding *)

(** X1: for an alignment that is a positive machine word, the padding is
    the least number of bytes that brings the offset to a multiple of the
    alignment: it lies in [0, a), the padded offset is a multiple of [a],
    and no smaller non-negative amount makes it one. *)
Theorem padding_is_least (offset a : Z) :
  0 < a < size_modulus ->
  0 <= padding_for_alignment offset a < a
  /\ (offset + padding_for_alignment offset a) mod a = 0
  /\ forall k, 0 <= k -> (offset + k) mod a = 0 ->
       padding_for_alignment offset a <= k.
Proof.
  intros Ha. destruct (padding_range offset a Ha) as [Hr Hal].
  split; [exact Hr|]. split; [exact Hal|].
  intros k Hk Hk0.
  destruct (Z_le_gt_dec (padding_for_alignment offset a) k) as [|Hgt]; [assumption|].
  exfalso.
  set (pad := padding_for_alignment offset a) in *.
  assert ((pad - k) mod a = 0) as Hdiff.
  { replace (pad - k) with ((offset + pad) - (offset + k)) by lia.
    rewrite Zminus_mod, Hal, Hk0. reflexivity. }
  rewrite Z.mod_small in Hdiff by lia. lia.
Qed.

Lemma padding_is_least_witness :
  0 <= padding_for_alignment 13 8 < 8
  /\ (13 + padding_for_alignment 13 8) mod 8 = 0
  /\ forall k, 0 <= k -> (13 + k) mod 8 = 0 -> padding_for_alignment 13 8 <= k.
Proof.
  apply (padding_is_least 13 8). rewrite size_modulus_eq. lia.
Defined.

(** ** The membership test *)

(** X2: when neither the end of the pool nor the end of the buffer wraps
    around the address space, [ptr_in_pool] answers false exactly for a
    buffer that starts outside the pool, true exactly for one that starts
    inside and ends within it, and stops on its assertion exactly for one
    that starts inside and ends beyond it. *)
Theorem ptr_in_pool_cases (pool poolsize buf bufsize : Z) :
  0 <= pool -> 0 <= poolsize -> pool + poolsize < size_modulus ->
  0 <= buf -> 0 <= bufsize -> buf + bufsize < size_modulus ->
  (ptr_in_pool pool poolsize buf bufsize = Ret false
   <-> ~ (pool <= buf < pool + poolsize))
  /\ (ptr_in_pool pool poolsize buf bufsize = Ret true
      <-> pool <= buf < pool + poolsize /\ buf + bufsize <= pool + poolsize)
  /\ (ptr_in_pool pool poolsize buf bufsize
        = AssertionFailure "Pointer does not partially overlap pool"
      <-> pool <= buf < pool + poolsize /\ pool + poolsize < buf + bufsize).
Proof.
  intros Hp Hs Htop Hb Hbs Hbtop. unfold ptr_in_pool.
  rewrite (wrap_small (pool + poolsize)) by lia.
  rewrite (wrap_small (buf + bufsize)) by lia.
  unfold_bind.
  destruct (Z.ltb_spec buf pool); cbn [orb].
  { repeat split; intros; try discriminate; try lia; reflexivity. }
  destruct (Z.geb_spec buf (pool + poolsize)); cbn [orb].
  { repeat split; intros; try discriminate; try lia; reflexivity. }
  destruct (Z.leb_spec (buf + bufsize) (pool + poolsize));
    repeat split; intros; try discriminate; try lia; reflexivity.
Qed.

Lemma ptr_in_pool_cases_witness :
  (ptr_in_pool 4096 1024 5000 100 = Ret false
   <-> ~ (4096 <= 5000 < 4096 + 1024))
  /\ (ptr_in_pool 4096 1024 5000 100 = Ret true
      <-> 4096 <= 5000 < 4096 + 1024 /\ 5000 + 100 <= 4096 + 1024)
  /\ (ptr_in_pool 4096 1024 5000 100
        = AssertionFailure "Pointer does not partially overlap pool"
      <-> 4096 <= 5000 < 4096 + 1024 /\ 4096 + 1024 < 5000 + 100).
Proof.
  apply (ptr_in_pool_cases 4096 1024 5000 100); rewrite ?size_modulus_eq; lia.
Defined.

(** X3: the end of the buffer is computed in machine words.  A buffer that
    starts inside the pool and is so long that its end wraps around the
    address space passes the assertion, and is reported as lying in the
    pool, as soon as the wrapped end is not above the end of the pool. *)
Theorem ptr_in_pool_accepts_wrapped_end (pool poolsize buf bufsize : Z) :
  0 <= pool -> pool + poolsize < size_modulus ->
  pool <= buf < pool + poolsize ->
  is_size_t bufsize ->
  size_modulus <= buf + bufsize <= size_modulus + pool + poolsize ->
  ptr_in_pool pool poolsize buf bufsize = Ret true.
Proof.
  intros Hp Htop Hb [Hs0 Hs1] Hw. unfold ptr_in_pool.
  rewrite (wrap_small (pool + poolsize)) by lia.
  assert (wrap (buf + bufsize) = buf + bufsize - size_modulus) as ->.
  { unfold wrap. symmetry. apply (Z.mod_unique _ _ 1); lia. }
  unfold_bind.
  destruct (Z.ltb_spec buf pool); [lia|].
  destruct (Z.geb_spec buf (pool + poolsize)); [lia|]. cbn [orb].
  destruct (Z.leb_spec (buf + bufsize - size_modulus) (pool + poolsize)); [reflexivity|lia].
Qed.

Lemma ptr_in_pool_accepts_wrapped_end_witness :
  ptr_in_pool 4096 1024 (4096 + 10) (SIZE_MAX - 4096) = Ret true.
Proof.
  apply (ptr_in_pool_accepts_wrapped_end 4096 1024 (4096 + 10) (SIZE_MAX - 4096));
    unfold is_size_t, SIZE_MAX; rewrite ?size_modulus_eq; lia.
Defined.

(** ** deallocate: the ways it stops *)

(** X4: on an enabled pool a deallocate call whose product
    [num_elems * elem_size] overflows a machine word never reaches the
    membership test: it stops on the assertion "No overflow in
    deallocation", wherever the address points. *)
Theorem deallocate_overflow_asserts (st : mlock_allocator) (p num_elems elem_size : Z) :
  m_pool st <> nullptr ->
  is_size_t num_elems -> is_size_t elem_size ->
  size_modulus <= num_elems * elem_size ->
  deallocate st p num_elems elem_size = AssertionFailure "No overflow in deallocation".
Proof.
  intros Hen Hn He Hov. unfold deallocate.
  destruct (Z.eqb_spec (m_pool st) nullptr); [contradiction|].
  assert (0 < elem_size) as Hpos.
  { destruct Hn, He. rewrite size_modulus_eq in *. nia. }
  destruct (Z.eqb_spec elem_size 0); [lia|].
  destruct (Z.eqb_spec (wrap (num_elems * elem_size) / elem_size) num_elems) as [Hdiv|_].
  - apply overflow_check_exact in Hdiv; [lia|assumption|assumption].
  - reflexivity.
Qed.

Lemma deallocate_overflow_asserts_witness :
  deallocate (state_of 4096 1024 [(0, 1024)]) 4096 SIZE_MAX 2
    = AssertionFailure "No overflow in deallocation".
Proof.
  apply (deallocate_overflow_asserts (state_of 4096 1024 [(0, 1024)]) 4096 SIZE_MAX 2).
  - simpl. unfold nullptr. lia.
  - unfold is_size_t, SIZE_MAX. rewrite size_modulus_eq. lia.
  - unfold is_size_t. rewrite size_modulus_eq. lia.
  - unfold SIZE_MAX. rewrite size_modulus_eq. lia.
Defined.

(** X5: on an enabled pool, with a non-zero element size and a product that
    does not overflow, a range that starts inside the pool and ends beyond
    its end makes deallocate stop on the assertion of the membership test;
    it is not reported as foreign. *)
Theorem deallocate_overrun_asserts (st : mlock_allocator) (p num_elems elem_size : Z) :
  pool_wf st ->
  is_size_t num_elems -> is_size_t elem_size -> elem_size <> 0 ->
  m_pool st <= p < m_pool st + m_poolsize st ->
  p + num_elems * elem_size < size_modulus ->
  m_pool st + m_poolsize st < p + num_elems * elem_size ->
  deallocate st p num_elems elem_size
    = AssertionFailure "Pointer does not partially overlap pool".
Proof.
  intros Hwf Hn He Hnz Hp Hno Hover.
  pose proof Hwf as (HB & HP & Htop).
  rewrite deallocate_checks_passed; try assumption; [|lia].
  cbv zeta.
  destruct (Z.ltb_spec p (m_pool st)); [lia|].
  destruct (Z.geb_spec p (m_pool st + m_poolsize st)); [lia|]. cbn [orb].
  rewrite wrap_small by (destruct Hn, He; nia).
  destruct (Z.leb_spec (p + num_elems * elem_size) (m_pool st + m_poolsize st));
    [lia|reflexivity].
Qed.

Lemma deallocate_overrun_asserts_witness :
  deallocate (state_of 4096 1024 [(0, 24)]) (4096 + 1020) 2 4
    = AssertionFailure "Pointer does not partially overlap pool".
Proof.
  apply (deallocate_overrun_asserts (state_of 4096 1024 [(0, 24)]) (4096 + 1020) 2 4).
  - apply example_pool_wf.
  - apply example_size. lia.
  - apply example_size. lia.
  - lia.
  - simpl. lia.
  - rewrite size_modulus_eq. lia.
  - simpl. lia.
Defined.




(** ** What the calls leave alone *)

(** X7: deallocate never writes to memory and never moves or resizes the
    pool: whatever it returns, the bytes of the address space, the freed
    ones included, the base and the size are what they were. *)
Theorem deallocate_leaves_memory
    (st st' : mlock_allocator) (p num_elems elem_size : Z) (b : bool) :
  deallocate st p num_elems elem_size = Ret (b, st') ->
  memory st' = memory st /\ m_pool st' = m_pool st /\ m_poolsize st' = m_poolsize st.
Proof.
  unfold deallocate, ptr_in_pool.
  destruct (m_pool st =? nullptr).
  { intros H. injection H as _ <-. repeat split. }
  destruct (elem_size =? 0); [discriminate|].
  unfold_bind.
  destruct (_ =? num_elems); [|discriminate].
  destruct (_ || _); cbn [negb].
  { intros H. injection H as _ <-. repeat split. }
  destruct (_ <=? _); [|discriminate]. cbn [negb].
  destruct (release _ _ _); try discriminate.
  intros H. injection H as _ <-. repeat split.
Qed.

Lemma deallocate_leaves_memory_witness :
  let st := state_of 4096 1024 [(256, 768)] in
  exists st', deallocate st 4096 1 256 = Ret (true, st')
              /\ memory st' = memory st /\ m_pool st' = m_pool st
              /\ m_poolsize st' = m_poolsize st.
Proof.
  intros st.
  destruct (deallocate st 4096 1 256) as [[b st']| | |] eqn:Hrun; try discriminate Hrun.
  assert (b = true) as -> by (vm_compute in Hrun; injection Hrun as <- _; reflexivity).
  exists st'. split; [reflexivity|].
  apply (deallocate_leaves_memory st st' 4096 1 256 true). exact Hrun.
Defined.

(** X8: allocate writes only the bytes it hands out and never moves or
    resizes the pool: after a return with address [A], every byte outside
    [A, A + n) reads what it read before the call. *)
Theorem allocate_writes_only_its_region
    (st st' : mlock_allocator) (num_elems elem_size A : Z) :
  pool_wf st -> freelist_in_pool st ->
  is_size_t num_elems -> is_size_t elem_size ->
  allocate st num_elems elem_size = Ret (A, st') ->
  m_pool st' = m_pool st /\ m_poolsize st' = m_poolsize st
  /\ forall a, ~ (A <= a < A + num_elems * elem_size) -> memory st' a = memory st a.
Proof.
  intros Hwf Hfl Hn He Hrun.
  destruct (allocate_inv st st' num_elems elem_size A Hwf Hfl Hn He Hrun)
    as [[_ ->]|(_ & l1 & e & l2 & _ & _ & _ & _ & Hst')].
  - repeat split.
  - cbv zeta in Hst'. rewrite Hst'. simpl. split; [reflexivity|]. split; [reflexivity|].
    intros a Hout. unfold clear_mem.
    destruct (Z.leb_spec A a); [|reflexivity].
    destruct (Z.ltb_spec a (A + num_elems * elem_size)); [lia|reflexivity].
Qed.

Lemma allocate_writes_only_its_region_witness :
  let st := fresh 4096 1024 (fun _ => 255) in
  exists st',
    allocate st 4 8 = Ret (4096, st')
    /\ m_pool st' = m_pool st /\ m_poolsize st' = m_poolsize st
    /\ forall a, ~ (4096 <= a < 4096 + 4 * 8) -> memory st' a = memory st a.
Proof.
  intros st.
  destruct (allocate st 4 8) as [[A st']| | |] eqn:Hrun; try discriminate Hrun.
  assert (A = 4096) as -> by (vm_compute in Hrun; congruence).
  exists st'. split; [reflexivity|].
  apply (allocate_writes_only_its_region st st' 4 8 4096).
  - unfold pool_wf. simpl. rewrite size_modulus_eq. unfold MLOCK_UPPER_BOUND. lia.
  - unfold freelist_in_pool, extent_in_pool. simpl. repeat constructor; simpl; lia.
  - apply example_size. lia.
  - apply example_size. lia.
  - exact Hrun.
Defined.

(** ** When allocate succeeds *)

Lemma perfect_is_candidate (n a : Z) (e : extent) :
  perfect_fit n a e -> candidate n a e.
Proof.
  intros [Hlen Hmod]. unfold candidate.
  rewrite (padding_of_aligned _ _ Hmod). lia.
Qed.

(** X9: once the refusal checks are passed, allocate returns the null
    pointer exactly when no extent of the free list can hold the request
    after its alignment padding; the allocator is then left as it was. *)
Theorem allocate_null_iff_no_candidate
    (st : mlock_allocator) (num_elems elem_size : Z) :
  pool_wf st -> freelist_in_pool st -> request_ok st num_elems elem_size ->
  ((exists st', allocate st num_elems elem_size = Ret (nullptr, st'))
   <-> no_candidate (m_freelist st) (num_elems * elem_size) elem_size)
  /\ (no_candidate (m_freelist st) (num_elems * elem_size) elem_size ->
      allocate st num_elems elem_size = Ret (nullptr, st)).
Proof.
  intros Hwf Hfl Hreq.
  assert (no_candidate (m_freelist st) (num_elems * elem_size) elem_size ->
          allocate st num_elems elem_size = Ret (nullptr, st)) as Hback.
  { intros Hnoc. apply allocate_no_fit; try assumption.
    intros j e' Hj Hp. apply (Hnoc j e' Hj). apply perfect_is_candidate. exact Hp. }
  split; [|exact Hback].
  split; [|intros Hnoc; exists st; apply Hback; exact Hnoc].
  intros [st' Hrun].
  pose proof Hwf as (HB & HP & Htop).
  assert (is_size_t elem_size /\ elem_size <> 0) as [He Hnz]
    by (destruct Hreq as (_ & ? & ? & _); split; assumption).
  destruct (selection_cases st num_elems elem_size Hwf Hreq)
    as [(i & e & Hfp)|[(Hnop & b & e & Hbc)|(_ & Hnoc)]]; [| |exact Hnoc]; exfalso.
  - rewrite (allocate_perfect st num_elems elem_size Hwf Hfl Hreq i e Hfp) in Hrun.
    destruct Hfp as (Hi & _).
    pose proof (lookup_in_pool _ _ _ _ Hfl Hi) as (Ho & _).
    destruct (_ =? 0); [|discriminate].
    injection Hrun as Hnull _. unfold nullptr in Hnull. lia.
  - rewrite (allocate_best st num_elems elem_size Hwf Hfl Hreq b e Hnop Hbc) in Hrun.
    cbv zeta in Hrun. destruct Hbc as (Hb & _).
    pose proof (lookup_in_pool _ _ _ _ Hfl Hb) as (Ho & _).
    pose proof (padding_range (fst e) elem_size ltac:(destruct He; lia)) as [Hpad _].
    destruct (_ =? 0); [|discriminate].
    injection Hrun as Hnull _. unfold nullptr in Hnull. lia.
Qed.

Lemma allocate_null_iff_no_candidate_witness :
  let st := state_of 4096 1024 [(1, 7); (100, 8)] in
  ((exists st', allocate st 2 8 = Ret (nullptr, st'))
   <-> no_candidate (m_freelist st) (2 * 8) 8)
  /\ (no_candidate (m_freelist st) (2 * 8) 8 -> allocate st 2 8 = Ret (nullptr, st)).
Proof.
  intros st. apply (allocate_null_iff_no_candidate st 2 8).
  - apply example_pool_wf.
  - unfold freelist_in_pool, extent_in_pool. simpl. repeat constructor; simpl; lia.
  - apply example_request_ok; lia.
Defined.

(** X10: when the pool base is a multiple of the element size, allocate
    never stops on its alignment assertion: every call with a non-zero
    element size returns, with an address or with the null pointer. *)
Theorem allocate_returns_when_base_aligned
    (st : mlock_allocator) (num_elems elem_size : Z) :
  pool_wf st -> freelist_in_pool st ->
  is_size_t num_elems -> is_size_t elem_size -> elem_size <> 0 ->
  m_pool st mod elem_size = 0 ->
  exists A st', allocate st num_elems elem_size = Ret (A, st').
Proof.
  intros Hwf Hfl Hn He Hnz Hbase.
  destruct (allocate_checks st num_elems elem_size Hwf Hn He)
    as [Hreq|[Hnull|[Hz _]]]; [|exists nullptr, st; exact Hnull|contradiction].
  assert (0 < elem_size < size_modulus) as Hes by (destruct He; lia).
  destruct (selection_cases st num_elems elem_size Hwf Hreq)
    as [(i & e & Hfp)|[(Hnop & b & e & Hbc)|(Hnop & Hnoc)]].
  - rewrite (allocate_perfect st num_elems elem_size Hwf Hfl Hreq i e Hfp).
    destruct Hfp as (_ & [_ Hmod] & _).
    assert ((m_pool st + fst e) mod elem_size = 0) as ->.
    { rewrite Z.add_mod, Hbase, Hmod by lia. apply Z.mod_0_l. lia. }
    cbn [Z.eqb]. eexists. eexists. reflexivity.
  - rewrite (allocate_best st num_elems elem_size Hwf Hfl Hreq b e Hnop Hbc).
    cbv zeta.
    destruct (padding_range (fst e) elem_size Hes) as [_ Hmod].
    assert ((m_pool st + fst e + padding_for_alignment (fst e) elem_size)
              mod elem_size = 0) as ->.
    { rewrite <- Z.add_assoc, Z.add_mod, Hbase, Hmod by lia. apply Z.mod_0_l. lia. }
    cbn [Z.eqb]. eexists. eexists. reflexivity.
  - exists nullptr, st. apply allocate_no_fit; assumption.
Qed.

Lemma allocate_returns_when_base_aligned_witness :
  exists A st', allocate (state_of 4096 1024 [(1, 1023)]) 3 8 = Ret (A, st').
Proof.
  apply (allocate_returns_when_base_aligned (state_of 4096 1024 [(1, 1023)]) 3 8).
  - apply example_pool_wf.
  - unfold freelist_in_pool, extent_in_pool. simpl. repeat constructor; simpl; lia.
  - apply example_size. lia.
  - apply example_size. lia.
  - lia.
  - reflexivity.
Defined.

(** X11: on the pool just constructed, with a base that is a multiple of
    the element size, every request that passes the refusal checks is served
    from the start of the pool: the base address is returned and the free
    list is the single extent that begins right behind the request. *)
Theorem first_allocation_at_base (B P : Z) (mem : Z -> Z) (num_elems elem_size : Z) :
  pool_wf (fresh B P mem) ->
  request_ok (fresh B P mem) num_elems elem_size ->
  B mod elem_size = 0 ->
  alloc_result (allocate (fresh B P mem) num_elems elem_size)
    = Ret (B, [(num_elems * elem_size, P - num_elems * elem_size)]).
Proof.
  intros Hwf Hreq Hbase.
  pose proof Hwf as (HB & HP & Htop). simpl in HB, HP, Htop.
  pose proof Hreq as (Hn & He & Hnz & Hno & Hlt). simpl in Hlt.
  destruct (request_no_wrap _ _ _ Hwf Hreq) as (Hpos & Hnn & _ & _).
  assert (freelist_in_pool (fresh B P mem)) as Hfl.
  { unfold freelist_in_pool, extent_in_pool. simpl. repeat constructor; simpl; lia. }
  assert (padding_for_alignment 0 elem_size = 0) as Hpad0.
  { apply padding_of_aligned. apply Z.mod_0_l. lia. }
  rewrite (allocate_best (fresh B P mem) num_elems elem_size Hwf Hfl Hreq O (0, P)).
  - cbv zeta. cbn [fst snd m_pool m_freelist memory fresh].
    rewrite Hpad0, !Z.add_0_r, Hbase. cbn [Z.eqb].
    unfold alloc_result. unfold_bind. cbn [fst snd m_freelist with_freelist fresh].
    unfold remainder. cbn [take drop app Z.eqb].
    destruct (Z.eqb_spec P (num_elems * elem_size + 0)); [lia|].
    rewrite Z.add_0_l, Z.sub_0_r. reflexivity.
  - intros j e' Hj [Hlen _]. destruct j as [|j]; simpl in Hj; [|discriminate].
    injection Hj as <-. simpl in Hlen. lia.
  - split; [reflexivity|]. split.
    + unfold candidate. cbn [fst snd]. rewrite Hpad0. lia.
    + intros j e' Hj _. destruct j as [|j]; simpl in Hj; [|discriminate].
      injection Hj as <-. right. split; [reflexivity|lia].
Qed.

Lemma first_allocation_at_base_witness :
  alloc_result (allocate (fresh 4096 1024 (fun _ => 255)) 3 8)
    = Ret (4096, [(3 * 8, 1024 - 3 * 8)]).
Proof.
  apply (first_allocation_at_base 4096 1024 (fun _ => 255) 3 8).
  - unfold pool_wf. simpl. rewrite size_modulus_eq. unfold MLOCK_UPPER_BOUND. lia.
  - unfold request_ok, is_size_t. simpl. rewrite size_modulus_eq. lia.
  - reflexivity.
Defined.

(** ** Bytes taken and given back *)

Lemma total_length_remainder (off len n pad : Z) :
  total_length (remainder off len n pad) = len - n.
Proof.
  unfold remainder.
  destruct (Z.eqb_spec pad 0); destruct (Z.eqb_spec len (n + pad));
    unfold total_length; simpl; lia.
Qed.

Lemma allocate_takes (st st' : mlock_allocator) (num_elems elem_size A : Z) :
  pool_wf st -> canonical (m_poolsize st) (m_freelist st) ->
  is_size_t num_elems -> is_size_t elem_size ->
  allocate st num_elems elem_size = Ret (A, st') ->
  (A = nullptr /\ st' = st)
  \/ (A <> nullptr
      /\ m_pool st' = m_pool st /\ m_poolsize st' = m_poolsize st
      /\ total_length (m_freelist st')
         = total_length (m_freelist st) - num_elems * elem_size
      /\ (forall x, in_range (A - m_pool st) (num_elems * elem_size) x ->
                    covers (m_freelist st) x)
      /\ (forall x, covers (m_freelist st') x
                    <-> covers (m_freelist st) x
                        /\ ~ in_range (A - m_pool st) (num_elems * elem_size) x)).
Proof.
  intros Hwf Hcan Hn He Hrun.
  pose proof (canonical_in_pool st Hcan) as Hfl.
  destruct (allocate_inv st st' num_elems elem_size A Hwf Hfl Hn He Hrun)
    as [Hnull|(Hreq & l1 & e & l2 & Heq & Hc & HA & Hal & Hst')];
    [left; exact Hnull|right].
  cbv zeta in Hc, HA, Hst'.
  destruct (request_no_wrap st num_elems elem_size Hwf Hreq) as (Hpos & Hnn & _ & _).
  pose proof (padding_range (fst e) elem_size ltac:(destruct He; lia)) as [Hpad _].
  set (n := num_elems * elem_size) in *.
  set (pad := padding_for_alignment (fst e) elem_size) in *.
  unfold canonical in Hcan. rewrite Heq in Hcan.
  destruct (canonical_from_middle _ _ _ _ _ Hcan)
    as (Hc1 & Hgap & Hlen & Hend & Hc2 & Hbefore & Hafter).
  pose proof (last_end_ge _ _ _ Hc1) as Hlo.
  pose proof Hwf as (HB & HP & Htop).
  split; [unfold nullptr; lia|].
  rewrite Hst'. cbn [m_pool m_poolsize m_freelist with_freelist].
  split; [reflexivity|]. split; [reflexivity|].
  replace (A - m_pool st) with (fst e + pad) by lia.
  rewrite Heq. unfold in_range. split; [|split].
  - rewrite !total_length_app, total_length_remainder.
    unfold total_length. simpl. lia.
  - intros x Hx. apply covers_app. right. apply covers_cons. left. lia.
  - intros x. rewrite !covers_app, covers_cons, covers_remainder by lia.
    assert (covers l1 x -> x < fst e) as H1.
    { intros (y & Hy & Hxy). destruct (Hbefore y Hy) as (_ & _ & ?). lia. }
    assert (covers l2 x -> fst e + snd e < x) as H2.
    { intros (y & Hy & Hxy). destruct (Hafter y Hy) as (? & _). lia. }
    intuition lia.
Qed.

(** X12: a call of allocate that returns an address on a canonical free
    list takes exactly its [n] bytes out of the free list: they were free
    before the call, the bytes free after the call are those free before
    that are not among them, and the number of free bytes drops by [n]. *)
Theorem allocate_takes_exactly_its_bytes
    (st st' : mlock_allocator) (num_elems elem_size A : Z) :
  pool_wf st -> canonical (m_poolsize st) (m_freelist st) ->
  is_size_t num_elems -> is_size_t elem_size ->
  allocate st num_elems elem_size = Ret (A, st') ->
  A <> nullptr ->
  total_length (m_freelist st')
    = total_length (m_freelist st) - num_elems * elem_size
  /\ (forall x, in_range (A - m_pool st) (num_elems * elem_size) x ->
                covers (m_freelist st) x)
  /\ (forall x, covers (m_freelist st') x
                <-> covers (m_freelist st) x
                    /\ ~ in_range (A - m_pool st) (num_elems * elem_size) x).
Proof.
  intros Hwf Hcan Hn He Hrun Hnonnull.
  destruct (allocate_takes st st' num_elems elem_size A Hwf Hcan Hn He Hrun)
    as [[Hnull _]|(_ & _ & _ & Htot & Hwas & Hcov)]; [contradiction|].
  split; [exact Htot|]. split; [exact Hwas|exact Hcov].
Qed.

Lemma allocate_takes_exactly_its_bytes_witness :
  let st := state_of 4096 1024 [(1, 7); (16, 1008)] in
  exists st',
    allocate st 2 8 = Ret (4096 + 16, st')
    /\ total_length (m_freelist st') = total_length (m_freelist st) - 2 * 8
    /\ (forall x, in_range (4096 + 16 - m_pool st) (2 * 8) x -> covers (m_freelist st) x)
    /\ (forall x, covers (m_freelist st') x
                  <-> covers (m_freelist st) x
                      /\ ~ in_range (4096 + 16 - m_pool st) (2 * 8) x).
Proof.
  intros st.
  destruct (allocate st 2 8) as [[A st']| | |] eqn:Hrun; try discriminate Hrun.
  assert (A = 4096 + 16) as ->.
  { vm_compute in Hrun. injection Hrun as <- _. reflexivity. }
  exists st'. split; [reflexivity|].
  apply (allocate_takes_exactly_its_bytes st st' 2 8 (4096 + 16)).
  - apply example_pool_wf.
  - unfold canonical. simpl. lia.
  - apply example_size. lia.
  - apply example_size. lia.
  - exact Hrun.
  - unfold nullptr. lia.
Defined.

(** X13: giving back an outstanding allocation always succeeds: deallocate
    returns true, the free list stays canonical and disjoint from the
    allocations that remain outstanding, the bytes free afterwards are
    those free before together with the bytes given back, and the number of
    free bytes grows by their number. *)
Theorem deallocate_gives_back_exactly_its_bytes
    (st : mlock_allocator) (live1 live2 : list extent) (p num_elems elem_size : Z) :
  pool_wf st ->
  heap_inv st (live1 ++ (p - m_pool st, num_elems * elem_size) :: live2) ->
  is_size_t num_elems -> is_size_t elem_size ->
  exists st',
    deallocate st p num_elems elem_size = Ret (true, st')
    /\ heap_inv st' (live1 ++ live2)
    /\ (forall x, covers (m_freelist st') x
                  <-> covers (m_freelist st) x
                      \/ in_range (p - m_pool st) (num_elems * elem_size) x)
    /\ total_length (m_freelist st')
       = total_length (m_freelist st) + num_elems * elem_size.
Proof.
  intros Hwf Hinv Hn He.
  destruct (deallocate_outstanding_full st live1 live2 p num_elems elem_size
              Hwf Hinv Hn He) as (st' & Hrun & _ & _ & Hinv' & Hcov & Htot).
  exists st'. split; [exact Hrun|]. split; [exact Hinv'|].
  split; [exact Hcov|exact Htot].
Qed.

Lemma example_heap_inv :
  heap_inv (state_of 4096 1024 [(0, 100); (200, 824)]) [(100, 100)].
Proof.
  unfold heap_inv, canonical. simpl. split; [lia|]. split.
  - repeat constructor; simpl; lia.
  - split; [|split; [constructor|exact I]].
    intros a e Ha He. apply list_elem_of_singleton in Ha as ->. unfold disjoint.
    apply elem_of_cons in He as [->|He]; [simpl; lia|].
    apply list_elem_of_singleton in He as ->. simpl. lia.
Qed.

Lemma deallocate_gives_back_exactly_its_bytes_witness :
  let st := state_of 4096 1024 [(0, 100); (200, 824)] in
  exists st',
    deallocate st (4096 + 100) 100 1 = Ret (true, st')
    /\ heap_inv st' []
    /\ (forall x, covers (m_freelist st') x
                  <-> covers (m_freelist st) x
                      \/ in_range (4096 + 100 - m_pool st) (100 * 1) x)
    /\ total_length (m_freelist st') = total_length (m_freelist st) + 100 * 1.
Proof.
  intros st.
  apply (deallocate_gives_back_exactly_its_bytes st [] [] (4096 + 100) 100 1).
  - apply example_pool_wf.
  - exact example_heap_inv.
  - apply example_size. lia.
  - apply example_size. lia.
Defined.

(** ** Outstanding allocations *)

Lemma reachable_example :
  reachable 4096 1024 (fun _ => 0)
    (with_freelist (fresh 4096 1024 (fun _ => 0)) [(1, 7); (16, 1008)]
       (clear_mem 4104 8 (clear_mem 4096 1 (memory (fresh 4096 1024 (fun _ => 0))))))
    [(8, 8); (0, 1)].
Proof.
  apply (reach_allocate 4096 1024 (fun _ => 0)
           (with_freelist (fresh 4096 1024 (fun _ => 0)) [(1, 1023)]
              (clear_mem 4096 1 (memory (fresh 4096 1024 (fun _ => 0)))))
           [(0, 1)] 1 8 4104).
  - apply (reach_allocate 4096 1024 (fun _ => 0) (fresh 4096 1024 (fun _ => 0)) [] 1 1 4096).
    + apply reach_fresh.
    + apply example_size. lia.
    + apply example_size. lia.
    + lia.
    + reflexivity.
  - apply example_size. lia.
  - apply example_size. lia.
  - lia.
  - reflexivity.
Qed.

Lemma fresh_example_wf : pool_wf (fresh 4096 1024 (fun _ => 0)).
Proof.
  unfold pool_wf. simpl. rewrite size_modulus_eq. unfold MLOCK_UPPER_BOUND. lia.
Qed.

(** X14: in every state reached from the fresh pool by allocate calls of
    positive size and deallocate calls that give back an outstanding
    allocation, the outstanding allocations lie within the pool, no two of
    them overlap, and none overlaps a free extent. *)
Theorem outstanding_allocations_disjoint
    (B P : Z) (mem : Z -> Z) (st : mlock_allocator) (live : list extent) :
  pool_wf (fresh B P mem) ->
  reachable B P mem st live ->
  (forall a, a ∈ live -> 0 <= fst a /\ 0 < snd a /\ fst a + snd a <= P)
  /\ (forall i j a b, i <> j -> live !! i = Some a -> live !! j = Some b -> disjoint a b)
  /\ (forall a e, a ∈ live -> e ∈ m_freelist st -> disjoint a e).
Proof.
  intros Hwf Hreach.
  destruct (reachable_inv B P mem st live Hwf Hreach)
    as (_ & _ & HP & _ & Hlive & Hdis & Hpair).
  rewrite HP in Hlive. split; [|split; [|exact Hdis]].
  - rewrite Forall_forall in Hlive. exact Hlive.
  - clear Hlive Hdis Hreach. induction live as [|c live IH]; intros i j a b Hne Hi Hj.
    + rewrite lookup_nil in Hi. discriminate.
    + destruct Hpair as [Hall Hrest]. rewrite Forall_forall in Hall.
      destruct i as [|i], j as [|j]; simpl in Hi, Hj.
      * contradiction.
      * injection Hi as <-. apply Hall. eapply list_elem_of_lookup_2; eauto.
      * injection Hj as <-. apply disjoint_sym, Hall. eapply list_elem_of_lookup_2; eauto.
      * apply (IH Hrest i j); [congruence|assumption|assumption].
Qed.

Lemma outstanding_allocations_disjoint_witness :
  let st := with_freelist (fresh 4096 1024 (fun _ => 0)) [(1, 7); (16, 1008)]
              (clear_mem 4104 8 (clear_mem 4096 1 (memory (fresh 4096 1024 (fun _ => 0))))) in
  let live := [(8, 8); (0, 1)] in
  (forall a, a ∈ live -> 0 <= fst a /\ 0 < snd a /\ fst a + snd a <= 1024)
  /\ (forall i j a b, i <> j -> live !! i = Some a -> live !! j = Some b -> disjoint a b)
  /\ (forall a e, a ∈ live -> e ∈ m_freelist st -> disjoint a e).
Proof.
  intros st live.
  apply (outstanding_allocations_disjoint 4096 1024 (fun _ => 0) st live).
  - exact fresh_example_wf.
  - exact reachable_example.
Defined.

Lemma reachable_partition
    (B P : Z) (mem : Z -> Z) (st : mlock_allocator) (live : list extent) :
  pool_wf (fresh B P mem) ->
  reachable B P mem st live ->
  (forall x, 0 <= x < P <-> covers (m_freelist st) x \/ covers live x)
  /\ total_length (m_freelist st) + total_length live = P.
Proof.
  intros Hwf Hreach.
  induction Hreach as
    [|st live num_elems elem_size A st' Hreach [IHc IHt] Hn He Hpos Hrun
     |st live1 live2 p num_elems elem_size b st' Hreach [IHc IHt] Hn He Hrun].
  - split.
    + intros x. simpl. rewrite covers_cons, !covers_nil. simpl. lia.
    + unfold total_length. simpl. lia.
  - destruct (reachable_inv B P mem st live Hwf Hreach)
      as (Hwfst & HB & HP & Hcan & _).
    destruct (allocate_takes st st' num_elems elem_size A Hwfst Hcan Hn He Hrun)
      as [[-> ->]|(Hnonnull & _ & _ & Htot & Hwas & Hcov)].
    { simpl. split; assumption. }
    destruct (Z.eqb_spec A nullptr) as [|_]; [contradiction|].
    rewrite HB in Hwas, Hcov. split.
    + intros x. rewrite covers_cons, Hcov, IHc. cbn [fst snd].
      specialize (Hwas x). unfold in_range in *.
      destruct (Z_le_gt_dec (A - B) x);
        destruct (Z_lt_ge_dec x (A - B + num_elems * elem_size)); intuition lia.
    + rewrite Htot. change (total_length ((A - B, num_elems * elem_size) :: live))
        with (num_elems * elem_size + total_length live). lia.
  - destruct (reachable_inv B P mem st _ Hwf Hreach)
      as (Hwfst & HB & HP & Hinv).
    rewrite <- HB in Hinv.
    destruct (deallocate_outstanding_full st live1 live2 p num_elems elem_size
                Hwfst Hinv Hn He) as (st'' & Hrun' & _ & _ & _ & Hcov & Htot).
    rewrite Hrun' in Hrun. injection Hrun as _ <-.
    rewrite HB in Hcov. split.
    + intros x. rewrite Hcov, IHc, !covers_app, covers_cons. cbn [fst snd]. tauto.
    + rewrite Htot. rewrite total_length_app in *.
      change (total_length ((p - B, num_elems * elem_size) :: live2))
        with (num_elems * elem_size + total_length live2) in IHt. lia.
Qed.

(** X15: in every such state each byte of the pool is either free or part
    of an outstanding allocation, and no byte outside the pool is either;
    the free bytes and the outstanding bytes add up to the size of the
    pool. *)
Theorem pool_is_partitioned
    (B P : Z) (mem : Z -> Z) (st : mlock_allocator) (live : list extent) :
  pool_wf (fresh B P mem) ->
  reachable B P mem st live ->
  (forall x, 0 <= x < P <-> covers (m_freelist st) x \/ covers live x)
  /\ total_length (m_freelist st) + total_length live = P.
Proof.
  intros Hwf Hreach. exact (reachable_partition B P mem st live Hwf Hreach).
Qed.

Lemma pool_is_partitioned_witness :
  let st := with_freelist (fresh 4096 1024 (fun _ => 0)) [(1, 7); (16, 1008)]
              (clear_mem 4104 8 (clear_mem 4096 1 (memory (fresh 4096 1024 (fun _ => 0))))) in
  let live := [(8, 8); (0, 1)] in
  (forall x, 0 <= x < 1024 <-> covers (m_freelist st) x \/ covers live x)
  /\ total_length (m_freelist st) + total_length live = 1024.
Proof.
  intros st live.
  apply (pool_is_partitioned 4096 1024 (fun _ => 0) st live).
  - exact fresh_example_wf.
  - exact reachable_example.
Defined.

(** ** Reuse *)

(** What allocate returns, and the free list it leaves, depend on the pool
    and the free list only, not on the contents of memory. *)
Lemma allocate_ext (st1 st2 : mlock_allocator) (num_elems elem_size : Z) :
  m_pool st1 = m_pool st2 -> m_poolsize st1 = m_poolsize st2 ->
  m_freelist st1 = m_freelist st2 ->
  alloc_result (allocate st1 num_elems elem_size)
  = alloc_result (allocate st2 num_elems elem_size).
Proof.
  destruct st1 as [P1 B1 fl1 mem1], st2 as [P2 B2 fl2 mem2]. simpl.
  intros <- <- <-. unfold allocate, alloc_result.
  cbn [m_pool m_poolsize m_freelist memory].
  destruct (B1 =? nullptr); [reflexivity|].
  destruct (elem_size =? 0); [reflexivity|].
  destruct (negb _); [reflexivity|].
  destruct (_ >=? P1); [reflexivity|].
  destruct (scan _ _ _ _ _ _) as [i|[b|]]; unfold_bind;
    try destruct (_ =? 0); reflexivity.
Qed.

(** X17: an allocation of positive size that has been given back is handed
    out again: after allocate and the matching deallocate, the same request
    returns the same address and leaves the same free list as the first
    time. *)
Theorem freed_region_is_reused
    (st st1 : mlock_allocator) (num_elems elem_size A : Z) :
  pool_wf st -> canonical (m_poolsize st) (m_freelist st) ->
  is_size_t num_elems -> is_size_t elem_size ->
  0 < num_elems * elem_size ->
  allocate st num_elems elem_size = Ret (A, st1) ->
  A <> nullptr ->
  exists st2 st3,
    deallocate st1 A num_elems elem_size = Ret (true, st2)
    /\ allocate st2 num_elems elem_size = Ret (A, st3)
    /\ m_freelist st3 = m_freelist st1.
Proof.
  intros Hwf Hcan Hn He Hpos Hrun Hnonnull.
  destruct (round_trip_core st st1 num_elems elem_size A
              Hwf Hcan Hn He Hpos Hrun Hnonnull) as (st2 & Hd & Hfl & HB & HP).
  exists st2.
  pose proof (allocate_ext st2 st num_elems elem_size HB HP Hfl) as Hext.
  rewrite Hrun in Hext. unfold alloc_result in Hext at 2. unfold_bind.
  cbn [fst snd] in Hext.
  destruct (allocate st2 num_elems elem_size) as [[A' st3]| | |];
    unfold alloc_result in Hext; unfold_bind; try discriminate Hext.
  cbn [fst snd] in Hext. injection Hext as -> Hfl3.
  exists st3. split; [exact Hd|]. split; [reflexivity|exact Hfl3].
Qed.

Lemma freed_region_is_reused_witness :
  let st := state_of 4096 1024 [(0, 1024)] in
  exists st1 st2 st3,
    allocate st 1 256 = Ret (4096, st1)
    /\ deallocate st1 4096 1 256 = Ret (true, st2)
    /\ allocate st2 1 256 = Ret (4096, st3)
    /\ m_freelist st3 = m_freelist st1.
Proof.
  intros st.
  destruct (allocate st 1 256) as [[A st1]| | |] eqn:Hrun; try discriminate Hrun.
  assert (A = 4096) as ->.
  { vm_compute in Hrun. injection Hrun as <- _. reflexivity. }
  exists st1.
  destruct (freed_region_is_reused st st1 1 256 4096) as (st2 & st3 & H1 & H2 & H3).
  - apply example_pool_wf.
  - unfold canonical. simpl. lia.
  - apply example_size. lia.
  - apply example_size. lia.
  - lia.
  - exact Hrun.
  - unfold nullptr. lia.
  - exists st2, st3. split; [reflexivity|]. split; [exact H1|]. split; assumption.
Defined.

(** ** Construction, destruction and the disabled allocator *)

(** X18: whenever the constructor returns, with a mapping at a valid
    address, the allocator is either disabled, exactly when the memory-lock
    limit is zero, with memory untouched; or it owns a pool of
    min(limit, 512 KiB) bytes at the mapped address, every byte of which is
    free and reads zero, with no allocation outstanding. *)
Theorem construct_establishes_pool
    (rlim_cur pool : Z) (mlock_ok : bool) (mem : Z -> Z) (st : mlock_allocator) :
  0 <= rlim_cur -> 0 < pool -> pool + MLOCK_UPPER_BOUND < size_modulus ->
  construct rlim_cur (Some pool) mlock_ok mem = Ret st ->
  (rlim_cur = 0 /\ disabled st /\ memory st = mem)
  \/ (0 < rlim_cur /\ mlock_ok = true
      /\ pool_wf st /\ m_pool st = pool
      /\ m_poolsize st = Z.min rlim_cur MLOCK_UPPER_BOUND
      /\ reachable pool (m_poolsize st) mem st []
      /\ heap_inv st []
      /\ (forall x, 0 <= x < m_poolsize st <-> covers (m_freelist st) x)
      /\ (forall a, pool <= a < pool + m_poolsize st -> memory st a = 0)).
Proof.
  intros Hlim Hpool Htop. unfold construct.
  assert (0 <= mlock_limit rlim_cur <= MLOCK_UPPER_BOUND) as Hrange.
  { unfold mlock_limit, MLOCK_UPPER_BOUND. lia. }
  destruct (Z.eqb_spec (mlock_limit rlim_cur) 0) as [Hz|Hnz].
  - intros Hrun. injection Hrun as <-. left.
    split; [unfold mlock_limit, MLOCK_UPPER_BOUND in Hz; lia|].
    split; [|reflexivity]. repeat split. simpl. exact Hz.
  - destruct mlock_ok; [|discriminate]. intros Hrun. injection Hrun as <-. right.
    assert (0 < rlim_cur) as Hpos.
    { unfold mlock_limit, MLOCK_UPPER_BOUND in Hnz. lia. }
    split; [exact Hpos|]. split; [reflexivity|].
    split; [unfold pool_wf; simpl; lia|]. split; [reflexivity|].
    split; [reflexivity|]. split; [apply reach_fresh|].
    split; [apply (fresh_heap_inv pool (mlock_limit rlim_cur) mem); lia|]. split.
    + intros x. simpl. rewrite covers_cons, covers_nil. simpl. lia.
    + intros a Ha. simpl in *. unfold clear_mem.
      destruct (Z.leb_spec pool a); [|lia].
      destruct (Z.ltb_spec a (pool + mlock_limit rlim_cur)); [reflexivity|lia].
Qed.

Lemma construct_establishes_pool_witness :
  exists st,
    construct 65536 (Some 4096) true (fun _ => 255) = Ret st
    /\ ((65536 = 0 /\ disabled st /\ memory st = (fun _ => 255))
        \/ (0 < 65536 /\ true = true
            /\ pool_wf st /\ m_pool st = 4096
            /\ m_poolsize st = Z.min 65536 MLOCK_UPPER_BOUND
            /\ reachable 4096 (m_poolsize st) (fun _ => 255) st []
            /\ heap_inv st []
            /\ (forall x, 0 <= x < m_poolsize st <-> covers (m_freelist st) x)
            /\ (forall a, 4096 <= a < 4096 + m_poolsize st -> memory st a = 0))).
Proof.
  eexists. split; [reflexivity|].
  apply (construct_establishes_pool 65536 4096 true (fun _ => 255)).
  - lia.
  - lia.
  - unfold MLOCK_UPPER_BOUND. rewrite size_modulus_eq. lia.
  - reflexivity.
Defined.

(** X19: the destructor wipes the pool and nothing else: in a state reached
    from the fresh pool, it zeroes every byte of the pool before giving the
    region up, the bytes of the allocations still outstanding included,
    leaves every byte outside the pool as it was, forgets the pool, and
    does nothing when run on an allocator without a pool. *)
Theorem destroy_wipes_pool
    (B P : Z) (mem : Z -> Z) (st : mlock_allocator) (live : list extent) :
  pool_wf (fresh B P mem) ->
  reachable B P mem st live ->
  (forall a, B <= a < B + P -> memory (destroy st) a = 0)
  /\ (forall a x, a ∈ live -> in_range (fst a) (snd a) x ->
        memory (destroy st) (B + x) = 0)
  /\ (forall a, ~ (B <= a < B + P) -> memory (destroy st) a = memory st a)
  /\ m_pool (destroy st) = nullptr
  /\ destroy (destroy st) = destroy st.
Proof.
  intros Hwf Hreach.
  destruct (reachable_inv B P mem st live Hwf Hreach)
    as ((HB0 & _) & HB & HP & _ & Hlive & _).
  rewrite Forall_forall in Hlive.
  assert (forall a, B <= a < B + P -> memory (destroy st) a = 0) as Hwipe.
  { intros a Ha. unfold destroy.
    destruct (Z.eqb_spec (m_pool st) nullptr) as [Hz|_]; [unfold nullptr in Hz; lia|].
    simpl. unfold clear_mem. rewrite HB, HP.
    destruct (Z.leb_spec B a); [|lia].
    destruct (Z.ltb_spec a (B + P)); [reflexivity|lia]. }
  split; [exact Hwipe|]. split; [|split; [|split]].
  - intros a x Ha Hx. apply Hwipe. destruct (Hlive a Ha) as (? & ? & ?).
    unfold in_range in Hx. lia.
  - intros a Ha. unfold destroy.
    destruct (m_pool st =? nullptr); [reflexivity|].
    simpl. unfold clear_mem. rewrite HB, HP.
    destruct (Z.leb_spec B a); [|reflexivity].
    destruct (Z.ltb_spec a (B + P)); [lia|reflexivity].
  - unfold destroy. destruct (Z.eqb_spec (m_pool st) nullptr); [assumption|reflexivity].
  - unfold destroy at 1.
    destruct (Z.eqb_spec (m_pool (destroy st)) nullptr) as [|Hne]; [reflexivity|].
    exfalso. apply Hne. unfold destroy.
    destruct (Z.eqb_spec (m_pool st) nullptr); [assumption|reflexivity].
Qed.

Lemma destroy_wipes_pool_witness :
  let st := with_freelist (fresh 4096 1024 (fun _ => 0)) [(1, 7); (16, 1008)]
              (clear_mem 4104 8 (clear_mem 4096 1 (memory (fresh 4096 1024 (fun _ => 0))))) in
  let live := [(8, 8); (0, 1)] in
  (forall a, 4096 <= a < 4096 + 1024 -> memory (destroy st) a = 0)
  /\ (forall a x, a ∈ live -> in_range (fst a) (snd a) x ->
        memory (destroy st) (4096 + x) = 0)
  /\ (forall a, ~ (4096 <= a < 4096 + 1024) -> memory (destroy st) a = memory st a)
  /\ m_pool (destroy st) = nullptr
  /\ destroy (destroy st) = destroy st.
Proof.
  intros st live.
  apply (destroy_wipes_pool 4096 1024 (fun _ => 0) st live).
  - exact fresh_example_wf.
  - exact reachable_example.
Defined.

(** X20: an allocator without a pool stays that way: allocate answers with
    the null pointer and deallocate with false for all arguments, a zero
    element size included, and any sequence of calls returns and leaves the
    allocator as it was. *)
Theorem disabled_allocator_refuses_everything (st : mlock_allocator) :
  m_pool st = nullptr ->
  (forall num_elems elem_size, allocate st num_elems elem_size = Ret (nullptr, st))
  /\ (forall p num_elems elem_size, deallocate st p num_elems elem_size = Ret (false, st))
  /\ (forall calls, run st calls = Ret st).
Proof.
  intros Hd.
  assert (forall num_elems elem_size, allocate st num_elems elem_size = Ret (nullptr, st))
    as Ha.
  { intros. unfold allocate. rewrite Hd. reflexivity. }
  assert (forall p num_elems elem_size, deallocate st p num_elems elem_size = Ret (false, st))
    as Hf.
  { intros. unfold deallocate. rewrite Hd. reflexivity. }
  split; [exact Ha|]. split; [exact Hf|].
  induction calls as [|c calls IH]; [reflexivity|].
  simpl. destruct c as [num_elems elem_size|p num_elems elem_size]; simpl.
  - rewrite Ha. simpl. exact IH.
  - rewrite Hf. simpl. exact IH.
Qed.

Lemma disabled_allocator_refuses_everything_witness :
  exists st,
    construct 0 None false (fun _ => 255) = Ret st
    /\ (forall num_elems elem_size, allocate st num_elems elem_size = Ret (nullptr, st))
    /\ (forall p num_elems elem_size, deallocate st p num_elems elem_size = Ret (false, st))
    /\ (forall calls, run st calls = Ret st).
Proof.
  eexists. split; [reflexivity|].
  apply disabled_allocator_refuses_everything. reflexivity.
Defined.

(** ** Coalescing *)

(** X21: fragmentation does not outlast the allocations: in every state
    reached from the fresh pool in which no allocation is outstanding, the
    free list is again the single extent [(0, P)]. *)
Theorem nothing_outstanding_means_one_extent
    (B P : Z) (mem : Z -> Z) (st : mlock_allocator) :
  pool_wf (fresh B P mem) ->
  reachable B P mem st [] ->
  m_freelist st = [(0, P)].
Proof.
  intros Hwf Hreach.
  destruct (reachable_inv B P mem st [] Hwf Hreach) as (_ & _ & HP & Hcan & _).
  destruct (reachable_partition B P mem st [] Hwf Hreach) as [Hcov _].
  rewrite HP in Hcan. destruct Hwf as (_ & HP0 & _). simpl in HP0.
  apply (canonical_covers_unique P _ _ (-1) (-1) Hcan).
  - simpl. lia.
  - intros x. rewrite covers_cons, covers_nil. simpl.
    specialize (Hcov x). rewrite covers_nil in Hcov. tauto.
Qed.

Lemma nothing_outstanding_means_one_extent_witness :
  exists st,
    run (fresh 4096 1024 (fun _ => 0))
        [Allocate 100 1; Allocate 100 1; Deallocate 4096 100 1;
         Deallocate (4096 + 100) 100 1] = Ret st
    /\ m_freelist st = [(0, 1024)].
Proof.
  eexists. split; [vm_compute; reflexivity|].
  eapply (nothing_outstanding_means_one_extent 4096 1024 (fun _ => 0)).
  - exact fresh_example_wf.
  - eapply (reach_deallocate 4096 1024 (fun _ => 0) _ [] [] (4096 + 100) 100 1 true).
    + eapply (reach_deallocate 4096 1024 (fun _ => 0) _ [(100, 100)] [] 4096 100 1 true).
      * eapply (reach_allocate 4096 1024 (fun _ => 0) _ [(0, 100)] 100 1 (4096 + 100)).
        -- eapply (reach_allocate 4096 1024 (fun _ => 0) _ [] 100 1 4096).
           ++ apply reach_fresh.
           ++ apply example_size. lia.
           ++ apply example_size. lia.
           ++ lia.
           ++ vm_compute. reflexivity.
        -- apply example_size. lia.
        -- apply example_size. lia.
        -- lia.
        -- vm_compute. reflexivity.
      * apply example_size. lia.
      * apply example_size. lia.
      * vm_compute. reflexivity.
    + apply example_size. lia.
    + apply example_size. lia.
    + vm_compute. reflexivity.
Defined.

(** X22: the order in which two outstanding allocations are given back does
    not matter: both orders succeed and leave the same free list. *)
Theorem deallocations_commute
    (st : mlock_allocator) (live : list extent)
    (p1 num_elems1 elem_size1 p2 num_elems2 elem_size2 : Z) :
  pool_wf st ->
  heap_inv st ((p1 - m_pool st, num_elems1 * elem_size1)
               :: (p2 - m_pool st, num_elems2 * elem_size2) :: live) ->
  is_size_t num_elems1 -> is_size_t elem_size1 ->
  is_size_t num_elems2 -> is_size_t elem_size2 ->
  exists s1 s12 s2 s21,
    deallocate st p1 num_elems1 elem_size1 = Ret (true, s1)
    /\ deallocate s1 p2 num_elems2 elem_size2 = Ret (true, s12)
    /\ deallocate st p2 num_elems2 elem_size2 = Ret (true, s2)
    /\ deallocate s2 p1 num_elems1 elem_size1 = Ret (true, s21)
    /\ m_freelist s12 = m_freelist s21.
Proof.
  intros Hwf Hinv Hn1 He1 Hn2 He2.
  destruct (deallocate_outstanding_full st [] _ p1 num_elems1 elem_size1
              Hwf Hinv Hn1 He1) as (s1 & Hr1 & HB1 & HP1 & Hinv1 & Hcov1 & _).
  assert (pool_wf s1) as Hwf1 by (unfold pool_wf in *; rewrite HB1, HP1; exact Hwf).
  simpl in Hinv1. rewrite <- HB1 in Hinv1.
  destruct (deallocate_outstanding_full s1 [] live p2 num_elems2 elem_size2
              Hwf1 Hinv1 Hn2 He2) as (s12 & Hr12 & HB12 & HP12 & Hinv12 & Hcov12 & _).
  destruct (deallocate_outstanding_full st [_] live p2 num_elems2 elem_size2
              Hwf Hinv Hn2 He2) as (s2 & Hr2 & HB2 & HP2 & Hinv2 & Hcov2 & _).
  assert (pool_wf s2) as Hwf2 by (unfold pool_wf in *; rewrite HB2, HP2; exact Hwf).
  simpl in Hinv2. rewrite <- HB2 in Hinv2.
  destruct (deallocate_outstanding_full s2 [] live p1 num_elems1 elem_size1
              Hwf2 Hinv2 Hn1 He1) as (s21 & Hr21 & HB21 & HP21 & Hinv21 & Hcov21 & _).
  exists s1, s12, s2, s21.
  repeat (split; [assumption|]).
  destruct Hinv12 as (Hcan12 & _). destruct Hinv21 as (Hcan21 & _).
  rewrite HP12, HP1 in Hcan12. rewrite HP21, HP2 in Hcan21.
  apply (canonical_covers_unique _ _ _ _ _ Hcan12 Hcan21).
  intros x. rewrite Hcov12, Hcov1, Hcov21, Hcov2, HB1, HB2. tauto.
Qed.

Lemma example_heap_inv_two :
  heap_inv (state_of 4096 1024 [(200, 824)]) [(0, 100); (100, 100)].
Proof.
  unfold heap_inv, canonical. simpl. split; [lia|]. split.
  - repeat constructor; simpl; lia.
  - split.
    + intros a e Ha He. apply list_elem_of_singleton in He as ->. unfold disjoint.
      apply elem_of_cons in Ha as [->|Ha]; [simpl; lia|].
      apply list_elem_of_singleton in Ha as ->. simpl. lia.
    + repeat constructor. unfold disjoint. simpl. lia.
Qed.

Lemma deallocations_commute_witness :
  let st := state_of 4096 1024 [(200, 824)] in
  exists s1 s12 s2 s21,
    deallocate st 4096 100 1 = Ret (true, s1)
    /\ deallocate s1 (4096 + 100) 100 1 = Ret (true, s12)
    /\ deallocate st (4096 + 100) 100 1 = Ret (true, s2)
    /\ deallocate s2 4096 100 1 = Ret (true, s21)
    /\ m_freelist s12 = m_freelist s21.
Proof.
  intros st.
  apply (deallocations_commute st [] 4096 100 1 (4096 + 100) 100 1).
  - apply example_pool_wf.
  - exact example_heap_inv_two.
  - apply example_size. lia.
  - apply example_size. lia.
  - apply example_size. lia.
  - apply example_size. lia.
Defined.

(** ** Zero bytes at the end of a free extent *)

Lemma lower_bound_app (l1 l2 : list extent) (start : Z) :
  (forall e, e ∈ l1 -> fst e < start) ->
  lower_bound (l1 ++ l2) start = (length l1 + lower_bound l2 start)%nat.
Proof.
  induction l1 as [|e l1 IH]; intros Hlow; simpl; [reflexivity|].
  destruct (Z.ltb_spec (fst e) start) as [_|Hge].
  - rewrite IH; [reflexivity|].
    intros x Hx. apply Hlow. apply elem_of_cons. right. exact Hx.
  - specialize (Hlow e ltac:(apply elem_of_cons; left; reflexivity)). lia.
Qed.

(** X23: a deallocate call for zero bytes at the address where a free
    extent ends is taken for a range that has already been merged forward.
    When another extent follows, that extent is added to the one that ends
    at the address and erased, although the bytes between the two are not
    free; when none follows, the call reads the past-the-end position of
    the free list. *)
Theorem deallocate_zero_size_at_extent_end
    (st : mlock_allocator) (l1 : list extent) (e1 : extent)
    (p num_elems elem_size : Z) :
  pool_wf st ->
  is_size_t num_elems -> is_size_t elem_size -> elem_size <> 0 ->
  num_elems * elem_size = 0 ->
  p = m_pool st + fst e1 + snd e1 ->
  p < m_pool st + m_poolsize st ->
  (forall e2 l2,
     m_freelist st = l1 ++ e1 :: e2 :: l2 ->
     canonical (m_poolsize st) (m_freelist st) ->
     deallocate st p num_elems elem_size
     = Ret (true, with_freelist st (l1 ++ (fst e1, snd e1 + snd e2) :: l2) (memory st)))
  /\ (m_freelist st = l1 ++ [e1] ->
      canonical (m_poolsize st) (m_freelist st) ->
      deallocate st p num_elems elem_size = Undefined).
Proof.
  intros Hwf Hn He Hnz Hzero Hp Hin.
  pose proof Hwf as (HB & HP & Htop).
  assert (forall rest, m_freelist st = l1 ++ e1 :: rest ->
            canonical (m_poolsize st) (m_freelist st) ->
            0 <= fst e1 /\ 0 < snd e1
            /\ deallocate st p num_elems elem_size
               = (fl ← release (l1 ++ e1 :: rest) (fst e1 + snd e1) 0 ;
                  Ret (true, with_freelist st fl (memory st)))
            /\ lower_bound (l1 ++ e1 :: rest) (fst e1 + snd e1)
               = (S (length l1) + lower_bound rest (fst e1 + snd e1))%nat) as Hcommon.
  { intros rest Heq Hcan. unfold canonical in Hcan. rewrite Heq in Hcan.
    destruct (canonical_from_middle _ _ _ _ _ Hcan)
      as (Hc1 & Hgap & Hlen & Hend & _ & Hbefore & _).
    pose proof (last_end_ge _ _ _ Hc1) as Hlo.
    split; [lia|]. split; [exact Hlen|]. split.
    - rewrite deallocate_checks_passed; try assumption;
        [|rewrite Hzero, size_modulus_eq; lia].
      cbv zeta. rewrite Hzero, Z.add_0_r, Heq.
      rewrite (wrap_small p) by lia.
      replace (p - m_pool st) with (fst e1 + snd e1) by lia.
      rewrite (wrap_small (fst e1 + snd e1)) by lia.
      destruct (Z.ltb_spec p (m_pool st)); [lia|].
      destruct (Z.geb_spec p (m_pool st + m_poolsize st)); [lia|]. cbn [orb].
      destruct (Z.leb_spec p (m_pool st + m_poolsize st)); [reflexivity|lia].
    - destruct (snoc_shape l1 rest e1) as [-> ->].
      apply lower_bound_app. intros x Hx.
      apply elem_of_app in Hx as [Hx|Hx].
      + destruct (Hbefore x Hx) as (_ & ? & ?). lia.
      + apply list_elem_of_singleton in Hx as ->. lia. }
  split.
  - intros e2 l2 Heq Hcan.
    destruct (Hcommon _ Heq Hcan) as (Ho & Hlen & -> & Hlb).
    unfold canonical in Hcan. rewrite Heq in Hcan.
    destruct (canonical_from_middle _ _ _ _ _ Hcan) as (_ & _ & _ & Hend & Hc2 & _).
    simpl in Hc2. destruct Hc2 as (G1 & G2 & G3 & _).
    unfold release. rewrite Hlb. cbn [lower_bound].
    destruct (Z.ltb_spec (fst e2) (fst e1 + snd e1)); [lia|].
    rewrite Nat.add_0_r, length_second.
    assert ((S (length l1) <? S (length l1) + length (e2 :: l2))%nat = true) as ->.
    { apply Nat.ltb_lt. simpl. lia. }
    cbn [andb Nat.eqb negb pred].
    rewrite (list_lookup_total_correct _ _ _ (lookup_second l1 l2 e1 e2)).
    rewrite Z.add_0_r, (wrap_small (fst e1 + snd e1)) by lia.
    destruct (Z.eqb_spec (fst e1 + snd e1) (fst e2)); [lia|].
    rewrite lookup_first, (wrap_small (fst e1 + snd e1)) by lia.
    rewrite Z.eqb_refl, lookup_second. cbn [Z.eqb negb].
    rewrite (wrap_small (snd e1 + snd e2)) by lia.
    rewrite update_first, delete_second. unfold_bind. cbn [Z.eqb negb].
    reflexivity.
  - intros Heq Hcan.
    destruct (Hcommon _ Heq Hcan) as (Ho & Hlen & -> & Hlb).
    unfold canonical in Hcan. rewrite Heq in Hcan.
    destruct (canonical_from_middle _ _ _ _ _ Hcan) as (_ & _ & _ & Hend & _).
    unfold release. rewrite Hlb. cbn [lower_bound].
    rewrite Nat.add_0_r, length_app. cbn [length].
    replace (length l1 + 1)%nat with (S (length l1)) by lia.
    rewrite Nat.ltb_irrefl. cbn [andb Nat.eqb negb pred].
    rewrite lookup_first, (wrap_small (fst e1 + snd e1)) by lia.
    rewrite Z.eqb_refl, lookup_past_end. cbn [Z.eqb negb].
    reflexivity.
Qed.

Lemma deallocate_zero_size_at_extent_end_witness :
  let st := state_of 4096 1024 [(1, 7); (16, 1008)] in
  (forall e2 l2,
     m_freelist st = [] ++ (1, 7) :: e2 :: l2 ->
     canonical (m_poolsize st) (m_freelist st) ->
     deallocate st (4096 + 8) 0 8
     = Ret (true, with_freelist st ([] ++ (1, 7 + snd e2) :: l2) (memory st)))
  /\ (m_freelist st = [] ++ [(1, 7)] ->
      canonical (m_poolsize st) (m_freelist st) ->
      deallocate st (4096 + 8) 0 8 = Undefined).
Proof.
  intros st.
  apply (deallocate_zero_size_at_extent_end st [] (1, 7) (4096 + 8) 0 8).
  - apply example_pool_wf.
  - apply example_size. lia.
  - apply example_size. lia.
  - lia.
  - lia.
  - reflexivity.
  - simpl. lia.
Defined.

(** ** Failure atomicity *)

Lemma deallocate_sized_cases (st : mlock_allocator) (p num_elems elem_size : Z) :
  pool_wf st -> canonical (m_poolsize st) (m_freelist st) ->
  is_size_t num_elems -> is_size_t elem_size ->
  0 < num_elems * elem_size ->
  0 <= p -> p + num_elems * elem_size < size_modulus ->
  deallocate st p num_elems elem_size = Ret (false, st)
  \/ (exists fl',
        deallocate st p num_elems elem_size
        = Ret (true, with_freelist st fl' (memory st))
        /\ forall x, covers fl' x
                     <-> covers (m_freelist st) x
                         \/ in_range (p - m_pool st) (num_elems * elem_size) x)
  \/ deallocate st p num_elems elem_size
     = AssertionFailure "Pointer does not partially overlap pool".
Proof.
  intros Hwf Hcan Hn He Hpos Hp Hsum.
  pose proof Hwf as (HB & HP & Htop).
  assert (elem_size <> 0) as Hnz by (intros ->; lia).
  rewrite (deallocate_checks_passed st p num_elems elem_size Hwf Hn He Hnz)
    by lia.
  cbv zeta.
  destruct (Z.ltb_spec p (m_pool st)); [left; reflexivity|].
  destruct (Z.geb_spec p (m_pool st + m_poolsize st)); [left; reflexivity|].
  cbn [orb]. rewrite (wrap_small (p + num_elems * elem_size)) by lia.
  destruct (Z.leb_spec (p + num_elems * elem_size) (m_pool st + m_poolsize st));
    [right; left|right; right; reflexivity].
  rewrite (wrap_small (p - m_pool st)) by lia.
  destruct (release_covers (m_poolsize st) (m_freelist st) (p - m_pool st)
              (num_elems * elem_size) Hcan)
    as (fl' & Hrel & Hcov);
    [unfold MLOCK_UPPER_BOUND in HP; rewrite size_modulus_eq; lia|lia|lia|lia|].
  rewrite Hrel. exists fl'. split; [reflexivity|exact Hcov].
Qed.

(** C8, as amended: a call of allocate that returns null and a call of
    deallocate that returns false leave the allocator, and so its free
    list, exactly as it was.  A call of allocate that returns an address
    has replaced one extent of the free list by what remains of it, and on
    a canonical free list the bytes free afterwards are those free before
    without the [n] bytes returned.  On a canonical free list, a call of
    deallocate for a positive number of bytes whose range does not wrap
    ends in one of three ways: it returns false with the allocator
    untouched; it returns true, with memory and pool untouched and the
    bytes free afterwards being those free before together with the range;
    or it stops on the assertion of the membership test, the range starting
    inside the pool and ending beyond it. *)
Theorem failure_atomicity (st : mlock_allocator) :
  constructed st -> freelist_in_pool st ->
  (forall num_elems elem_size A st',
     is_size_t num_elems -> is_size_t elem_size ->
     allocate st num_elems elem_size = Ret (A, st') ->
     (A = nullptr /\ st' = st)
     \/ (A <> nullptr
         /\ exists l1 e l2,
              m_freelist st = l1 ++ e :: l2
              /\ m_freelist st'
                 = l1 ++ remainder (fst e) (snd e) (num_elems * elem_size)
                                   (padding_for_alignment (fst e) elem_size) ++ l2))
  /\ (forall p num_elems elem_size st',
        deallocate st p num_elems elem_size = Ret (false, st') -> st' = st)
  /\ (pool_wf st -> canonical (m_poolsize st) (m_freelist st) ->
      (forall num_elems elem_size A st',
         is_size_t num_elems -> is_size_t elem_size ->
         allocate st num_elems elem_size = Ret (A, st') ->
         A <> nullptr ->
         m_pool st' = m_pool st /\ m_poolsize st' = m_poolsize st
         /\ total_length (m_freelist st')
            = total_length (m_freelist st) - num_elems * elem_size
         /\ forall x, covers (m_freelist st') x
                      <-> covers (m_freelist st) x
                          /\ ~ in_range (A - m_pool st) (num_elems * elem_size) x)
      /\ (forall p num_elems elem_size,
            is_size_t num_elems -> is_size_t elem_size ->
            0 < num_elems * elem_size ->
            0 <= p -> p + num_elems * elem_size < size_modulus ->
            deallocate st p num_elems elem_size = Ret (false, st)
            \/ (exists fl',
                  deallocate st p num_elems elem_size
                  = Ret (true, with_freelist st fl' (memory st))
                  /\ forall x, covers fl' x
                               <-> covers (m_freelist st) x
                                   \/ in_range (p - m_pool st)
                                               (num_elems * elem_size) x)
            \/ deallocate st p num_elems elem_size
               = AssertionFailure "Pointer does not partially overlap pool")).
Proof.
  intros Hst Hfl. split; [|split].
  - intros num_elems elem_size A st' Hn He Hrun.
    destruct Hst as [(Hd & _)|Hwf].
    { left. unfold allocate in Hrun. rewrite Hd in Hrun. simpl in Hrun.
      injection Hrun as <- <-. split; reflexivity. }
    destruct (allocate_inv st st' num_elems elem_size A Hwf Hfl Hn He Hrun)
      as [Hnull|(Hreq & l1 & e & l2 & Heq & Hc & HA & Hal & Hst')];
      [left; exact Hnull|].
    right. cbv zeta in Hc, HA, Hst'.
    assert (e ∈ m_freelist st) as Hin.
    { rewrite Heq. apply elem_of_app. right. apply elem_of_cons. left. reflexivity. }
    assert (extent_in_pool (m_poolsize st) e) as (Ho & Hl & Hend).
    { unfold freelist_in_pool in Hfl. rewrite Forall_forall in Hfl. apply Hfl. exact Hin. }
    pose proof (padding_range (fst e) elem_size
                  ltac:(destruct He, Hreq as (_ & _ & ? & _); lia)) as [Hpad _].
    destruct Hwf as (HB & _).
    split; [unfold nullptr; lia|].
    exists l1, e, l2. split; [exact Heq|]. rewrite Hst'. reflexivity.
  - intros p num_elems elem_size st' Hrun.
    eapply deallocate_false_inv. exact Hrun.
  - intros Hwf Hcan. split.
    + intros num_elems elem_size A st' Hn He Hrun Hnonnull.
      destruct (allocate_takes st st' num_elems elem_size A Hwf Hcan Hn He Hrun)
        as [[Hnull _]|(_ & HB & HP & Htot & _ & Hcov)]; [contradiction|].
      split; [exact HB|]. split; [exact HP|]. split; [exact Htot|exact Hcov].
    + intros p num_elems elem_size Hn He Hpos Hp Hsum.
      exact (deallocate_sized_cases st p num_elems elem_size
               Hwf Hcan Hn He Hpos Hp Hsum).
Qed.

Lemma failure_atomicity_witness :
  let st := state_of 4096 1024 [(4, 100); (300, 724)] in
  (exists st',
     allocate st 10 8 = Ret (4096 + 8, st')
     /\ m_freelist st' = [(4, 4); (88, 16); (300, 724)]
     /\ forall x, covers (m_freelist st') x
                  <-> covers (m_freelist st) x /\ ~ in_range 8 80 x)
  /\ (exists fl',
        deallocate st (4096 + 104) 196 1
        = Ret (true, with_freelist st fl' (memory st))
        /\ forall x, covers fl' x <-> covers (m_freelist st) x \/ in_range 104 196 x)
  /\ deallocate st 8192 16 1 = Ret (false, st).
Proof.
  intros st.
  assert (pool_wf st) as Hwf by apply example_pool_wf.
  assert (canonical (m_poolsize st) (m_freelist st)) as Hcan
    by (unfold canonical; simpl; lia).
  assert (freelist_in_pool st) as Hfl.
  { unfold freelist_in_pool, extent_in_pool. simpl. repeat constructor; simpl; lia. }
  destruct (failure_atomicity st (or_intror Hwf) Hfl) as (_ & _ & Hsized).
  destruct (Hsized Hwf Hcan) as [Halloc Hdealloc].
  split; [|split].
  - destruct (allocate st 10 8) as [[A st']| | |] eqn:Hrun; try discriminate Hrun.
    assert (A = 4096 + 8 /\ m_freelist st' = [(4, 4); (88, 16); (300, 724)])
      as [-> Hlist].
    { vm_compute in Hrun. injection Hrun as <- <-. split; reflexivity. }
    exists st'. split; [reflexivity|]. split; [exact Hlist|].
    destruct (Halloc 10 8 (4096 + 8) st') as (_ & _ & _ & Hcov).
    + apply example_size. lia.
    + apply example_size. lia.
    + exact Hrun.
    + unfold nullptr. lia.
    + exact Hcov.
  - destruct (Hdealloc (4096 + 104) 196 1) as [Hr|[Hr|Hr]].
    + apply example_size. lia.
    + apply example_size. lia.
    + lia.
    + lia.
    + rewrite size_modulus_eq. lia.
    + vm_compute in Hr. discriminate Hr.
    + exact Hr.
    + vm_compute in Hr. discriminate Hr.
  - destruct (Hdealloc 8192 16 1) as [Hr|[(fl' & Hr & _)|Hr]].
    + apply example_size. lia.
    + apply example_size. lia.
    + lia.
    + lia.
    + rewrite size_modulus_eq. lia.
    + exact Hr.
    + vm_compute in Hr. discriminate Hr.
    + vm_compute in Hr. discriminate Hr.
Defined.

(** A range that starts inside the pool and ends beyond it is answered
    neither with true nor with false: on the pool of 1024 bytes at address
    4096 with the free list [(0, 24)], deallocate of 100 bytes at address
    4096 + 1000 stops on the assertion of the membership test. *)
Lemma deallocate_stops_without_answer :
  let st := state_of 4096 1024 [(0, 24)] in
  deallocate st (4096 + 1000) 100 1
  = AssertionFailure "Pointer does not partially overlap pool"
  /\ ~ every_call_returns_cleanly.
Proof.
  intros st. split; [vm_compute; reflexivity|].
  intros Hclaim.
  destruct (Hclaim st) as [_ Hde].
  - apply example_pool_wf.
  - unfold canonical. simpl. lia.
  - destruct (Hde (4096 + 1000) 100 1) as [[st' Hr]|Hr];
      try (apply example_size; lia);
      vm_compute in Hr; discriminate Hr.
Qed.
